(** * PRS stack allocator ([prs/alloc/stack.c])

    A shallow embedding of the four operations of the stack allocator
    ([prs_stack_create], [prs_stack_destroy], [prs_stack_grow] and
    [prs_stack_address_in_range]) and the properties of its specification.

    - [prs_size_t] and [prs_uintptr_t] are machine words: values of [Z] in
      [0, 2^wbits), every C operation followed by its wrap-around.
    - The platform ([prs/pal/mem.h], [prs/pal/os.h]) is a [world]: the results
      the operating system will give to the next reservations, the trace of
      the memory calls issued so far, and the caller's memory cells that hold
      the output parameters.
    - A C function is a computation [M A]: it takes a world and either
      returns a value and a new world, or terminates the program (a violated
      [PRS_PRECONDITION] or [PRS_ASSERT]). *)

From Stdlib Require Import ZArith List Lia Bool Sorted.
From stdpp Require Import gmap.
Import ListNotations.
Local Open Scope Z_scope.

(** ** Platform selection and flags *)

(** [PRS_PAL_OS]: the two branches of [#if PRS_PAL_OS == PRS_PAL_OS_WINDOWS]. *)
Inductive prs_pal_os : Type :=
  | PRS_PAL_OS_WINDOWS
  | PRS_PAL_OS_LINUX.

(** [PRS_STACK_EXTRA_PAGES] (stack.c, lines 65-69). *)
Definition PRS_STACK_EXTRA_PAGES (os : prs_pal_os) : Z :=
  match os with
  | PRS_PAL_OS_WINDOWS => 3
  | PRS_PAL_OS_LINUX => 0
  end.

(** Modelled from the spec: the protection flags of [prs/pal/mem.h], which is
    not among the sources: "a protection flag set drawn from {read, write,
    guard} (combinable)".  A flag set is one boolean per flag and [|] is the
    union. *)
Record mem_flags : Type := MemFlags {
  flag_read : bool;
  flag_write : bool;
  flag_guard : bool
}.

Definition PRS_PAL_MEM_FLAG_NONE : mem_flags := MemFlags false false false.
Definition PRS_PAL_MEM_FLAG_READ : mem_flags := MemFlags true false false.
Definition PRS_PAL_MEM_FLAG_WRITE : mem_flags := MemFlags false true false.
Definition PRS_PAL_MEM_FLAG_GUARD : mem_flags := MemFlags false false true.

Definition flags_or (a b : mem_flags) : mem_flags :=
  MemFlags (flag_read a || flag_read b)
           (flag_write a || flag_write b)
           (flag_guard a || flag_guard b).

Infix ".|" := flags_or (at level 50, left associativity).

(** ** The platform as a world *)

(** One call of a platform memory primitive. *)
Inductive mem_event : Type :=
  | EvMap (size : Z) (flags : mem_flags) (result : Z)
  | EvCommit (addr size : Z) (flags : mem_flags)
  | EvUnmap (addr size : Z).

Record world : Type := World {
  map_results : list Z;     (* what the next reservations will return; 0 is failure *)
  trace : list mem_event;   (* the memory calls issued so far, oldest first *)
  store : gmap Z Z          (* the caller's [prs_size_t] cells, by address *)
}.

(** The outcome of running a C function. *)
Inductive outcome (A : Type) : Type :=
  | Done (a : A) (w : world)
  | Fatal.
Arguments Done {A} a w.
Arguments Fatal {A}.

Definition M (A : Type) : Type := world -> outcome A.

Definition ret {A : Type} (a : A) : M A := fun w => Done a w.

Definition bind {A B : Type} (m : M A) (k : A -> M B) : M B :=
  fun w =>
    match m w with
    | Done a w' => k a w'
    | Fatal => Fatal
    end.

Declare Scope prs_scope.
Delimit Scope prs_scope with prs.
Notation "x <- m ; k" := (bind m (fun x => k))
  (at level 100, m at next level, right associativity) : prs_scope.
Notation "m ;; k" := (bind m (fun _ => k))
  (at level 100, right associativity) : prs_scope.
Local Open Scope prs_scope.

(** Modelled from the spec: the macros of [prs/error.h] and [prs/rtc.h], which
    are not among the sources.  A violated precondition or assertion is a
    "programming error: fatal, terminates immediately"; [PRS_RTC_IF] and
    [PRS_ERROR_IF] are "checked runtime conditions", that is plain [if]s, and
    are written as [if] in the functions below. *)
Definition PRS_PRECONDITION (cond : bool) : M unit :=
  fun w => if cond then Done tt w else Fatal.

(** Modelled from the spec: [PRS_ASSERT], with the same outcome as a violated
    precondition ("this should fail loudly (fatal)"). *)
Definition PRS_ASSERT (cond : bool) : M unit :=
  fun w => if cond then Done tt w else Fatal.

(** Modelled from the spec: the memory primitives of [prs/pal/mem.h], which is
    not among the sources.  "reserve N bytes of address space with no backing
    (returns base address or failure)": the result is the next one the
    operating system has in store, the null address when it has none. *)
Definition prs_pal_mem_map (size : Z) (flags : mem_flags) : M Z :=
  fun w =>
    match map_results w with
    | [] =>
        Done 0 (World [] (trace w ++ [EvMap size flags 0]) (store w))
    | base :: rest =>
        Done base (World rest (trace w ++ [EvMap size flags base]) (store w))
    end.

(** Modelled from the spec: [prs_pal_mem_commit] of [prs/pal/mem.h], "commit
    a sub-range of a reservation with a protection flag set".  The allocator
    does not look at its result. *)
Definition prs_pal_mem_commit (addr size : Z) (flags : mem_flags) : M unit :=
  fun w =>
    Done tt (World (map_results w) (trace w ++ [EvCommit addr size flags]) (store w)).

(** Modelled from the spec: [prs_pal_mem_unmap] of [prs/pal/mem.h],
    "unmap/release an entire previously reserved range". *)
Definition prs_pal_mem_unmap (addr size : Z) : M unit :=
  fun w =>
    Done tt (World (map_results w) (trace w ++ [EvUnmap addr size]) (store w)).

(** [*p = v] for a [prs_size_t* p]. *)
Definition store_size (p v : Z) : M unit :=
  fun w => Done tt (World (map_results w) (trace w) (<[p := v]> (store w))).

(** A world in which nothing has been reserved yet and the operating system
    will hand out the reservation at 65536. *)
Definition fresh_world : world := World [65536] [] ∅.

(** ** What the platform holds after a trace *)

(** Modelled from the spec: the bookkeeping of the operating system behind
    [prs/pal/mem.h], which is not among the sources.  "Reservation: a virtual
    address range claimed from the OS"; "Commit: backing a sub-range of a
    reservation". *)
Record resources : Type := Resources {
  reserved : list (Z * Z);                 (* base, size *)
  committed : list (Z * Z * mem_flags)     (* address, size, flags *)
}.

(** The range [[addr, addr + len)] lies in [[base, base + size)]. *)
Definition within (base size addr len : Z) : bool :=
  (base <=? addr) && (addr + len <=? base + size).

(** Modelled from the spec: the effect of one memory call on what the
    operating system holds.  A failed reservation claims nothing; unmapping
    releases the range in one operation, "reservation and all commits are
    released together". *)
Definition apply_event (r : resources) (e : mem_event) : resources :=
  match e with
  | EvMap size _ base =>
      if base =? 0 then r
      else Resources (reserved r ++ [(base, size)]) (committed r)
  | EvCommit addr size flags =>
      Resources (reserved r) (committed r ++ [(addr, size, flags)])
  | EvUnmap addr size =>
      Resources
        (List.filter (fun b => negb (fst b =? addr)) (reserved r))
        (List.filter (fun c => negb (within addr size (fst (fst c)) (snd (fst c))))
           (committed r))
  end.

Definition outstanding_from (r : resources) (t : list mem_event) : resources :=
  fold_left apply_event t r.

Definition outstanding (t : list mem_event) : resources :=
  outstanding_from (Resources [] []) t.

(** ** The allocator *)

Section StackAllocator.

(** The width of [prs_size_t] and [prs_uintptr_t], the value of
    [prs_pal_os_get_page_size()], the configuration constant
    [PRS_MAX_STACK_SIZE] of [prs/config.h] and the platform the file is
    compiled for. *)
Variable wbits : Z.
Variable page_size : Z.
Variable PRS_MAX_STACK_SIZE : Z.
Variable PRS_PAL_OS : prs_pal_os.

(** Unsigned machine arithmetic. *)
Definition wrap (z : Z) : Z := z mod 2 ^ wbits.
Definition uadd (a b : Z) : Z := wrap (a + b).
Definition usub (a b : Z) : Z := wrap (a - b).
Definition umul (a b : Z) : Z := wrap (a * b).

(** Modelled from the spec: [prs_pal_os_get_page_size] of [prs/pal/os.h],
    "query page size (bytes)": the same value at every call. *)
Definition prs_pal_os_get_page_size : Z := page_size.

(** [s] rounded up to the next multiple of [p], over the integers. *)
Definition round_up (s p : Z) : Z := (s + p - 1) / p * p.

(** Modelled from the spec: [prs_bitops_align_size] of [prs/pal/bitops.h],
    which is not among the sources: "round a byte count up to the next
    multiple of a given page size".  The result is a [prs_size_t]. *)
Definition prs_bitops_align_size (size alignment : Z) : Z :=
  wrap (round_up size alignment).

(** The two flag sets the allocator commits with. *)
Definition RW : mem_flags := PRS_PAL_MEM_FLAG_READ .| PRS_PAL_MEM_FLAG_WRITE.
Definition GRW : mem_flags :=
  PRS_PAL_MEM_FLAG_GUARD .| PRS_PAL_MEM_FLAG_READ .| PRS_PAL_MEM_FLAG_WRITE.

(** [prs_stack_create] (stack.c, lines 83-121).  [available_size] is the
    address of the output cell; the null pointer is 0. *)
Definition prs_stack_create (size available_size : Z) : M Z :=
  PRS_PRECONDITION (size >? 0) ;;
  let page_size := prs_pal_os_get_page_size in
  let aligned_size := prs_bitops_align_size size page_size in
  if aligned_size >? PRS_MAX_STACK_SIZE then ret 0
  else
    PRS_ASSERT (aligned_size =? prs_bitops_align_size aligned_size page_size) ;;
    stack_bottom <- prs_pal_mem_map PRS_MAX_STACK_SIZE PRS_PAL_MEM_FLAG_NONE ;
    if stack_bottom =? 0 then ret 0
    else
      let protected_size := usub PRS_MAX_STACK_SIZE aligned_size in
      let stack_limit := uadd stack_bottom protected_size in
      let commit_and_return : M Z :=
        prs_pal_mem_commit stack_limit aligned_size RW ;;
        let stack := uadd stack_bottom PRS_MAX_STACK_SIZE in
        store_size available_size aligned_size ;;
        ret stack in
      match PRS_PAL_OS with
      | PRS_PAL_OS_WINDOWS =>
          let extra_size :=
            umul page_size (1 + PRS_STACK_EXTRA_PAGES PRS_PAL_OS) in
          if aligned_size >? usub PRS_MAX_STACK_SIZE extra_size then ret 0
          else
            let stack_extra := usub stack_limit extra_size in
            let stack_guard := usub stack_limit page_size in
            prs_pal_mem_commit stack_extra
              (umul page_size (PRS_STACK_EXTRA_PAGES PRS_PAL_OS)) RW ;;
            prs_pal_mem_commit stack_guard page_size GRW ;;
            commit_and_return
      | PRS_PAL_OS_LINUX => commit_and_return
      end.

(** [prs_stack_destroy] (stack.c, lines 129-133). *)
Definition prs_stack_destroy (stack : Z) : M unit :=
  let stack_bottom := usub stack PRS_MAX_STACK_SIZE in
  prs_pal_mem_unmap stack_bottom PRS_MAX_STACK_SIZE.

(** The growth policy of [prs_stack_grow] (stack.c, lines 156-164): the
    values of [grow_size] and [aligned_new_size] on each platform. *)
Definition grow_size (stack old_size failed_ptr : Z) : Z :=
  let page_size := prs_pal_os_get_page_size in
  match PRS_PAL_OS with
  | PRS_PAL_OS_WINDOWS =>
      umul (1 + PRS_STACK_EXTRA_PAGES PRS_PAL_OS) page_size
  | PRS_PAL_OS_LINUX =>
      let required_size := usub stack failed_ptr in
      prs_bitops_align_size required_size page_size
  end.

Definition aligned_new_size (stack old_size failed_ptr : Z) : Z :=
  let page_size := prs_pal_os_get_page_size in
  match PRS_PAL_OS with
  | PRS_PAL_OS_WINDOWS =>
      uadd old_size (grow_size stack old_size failed_ptr)
  | PRS_PAL_OS_LINUX =>
      let required_size := usub stack failed_ptr in
      prs_bitops_align_size required_size page_size
  end.

(** [PRS_ASSERT(required_size > old_size)] (line 162), on the platform that
    has it. *)
Definition grow_assertion (stack old_size failed_ptr : Z) : M unit :=
  match PRS_PAL_OS with
  | PRS_PAL_OS_WINDOWS => ret tt
  | PRS_PAL_OS_LINUX =>
      let required_size := usub stack failed_ptr in
      PRS_ASSERT (required_size >? old_size)
  end.

(** [prs_stack_grow] (stack.c, lines 151-190).  [new_size] is the address of
    the output cell; [PRS_TRUE] and [PRS_FALSE] are [true] and [false]. *)
Definition prs_stack_grow (stack old_size failed_ptr new_size : Z) : M bool :=
  PRS_PRECONDITION (negb (stack =? 0)) ;;
  let page_size := prs_pal_os_get_page_size in
  let grow_size := grow_size stack old_size failed_ptr in
  grow_assertion stack old_size failed_ptr ;;
  let aligned_new_size := aligned_new_size stack old_size failed_ptr in
  if aligned_new_size >? PRS_MAX_STACK_SIZE then ret false
  else
    let stack_bottom := usub stack PRS_MAX_STACK_SIZE in
    let protected_size := usub PRS_MAX_STACK_SIZE aligned_new_size in
    let stack_limit := uadd stack_bottom protected_size in
    let commit_and_return : M bool :=
      prs_pal_mem_commit stack_limit grow_size RW ;;
      store_size new_size aligned_new_size ;;
      ret true in
    match PRS_PAL_OS with
    | PRS_PAL_OS_WINDOWS =>
        if aligned_new_size >? usub PRS_MAX_STACK_SIZE grow_size then ret false
        else
          let stack_extra := usub stack_limit grow_size in
          let stack_guard := usub stack_limit page_size in
          prs_pal_mem_commit stack_extra
            (umul page_size (PRS_STACK_EXTRA_PAGES PRS_PAL_OS)) RW ;;
          prs_pal_mem_commit stack_guard page_size GRW ;;
          commit_and_return
    | PRS_PAL_OS_LINUX => commit_and_return
    end.

(** [prs_stack_address_in_range] (stack.c, lines 200-206). *)
Definition prs_stack_address_in_range (stack address : Z) : bool :=
  let ptr := address in
  let start := usub stack PRS_MAX_STACK_SIZE in
  let end_ := stack in
  (ptr >=? start) && (ptr <? end_).

(** ** Vocabulary of the specification *)

(** A stack: a value returned by [prs_stack_create], the end of a
    reservation of [PRS_MAX_STACK_SIZE] bytes that starts at a non-null
    address and lies in the address space. *)
Definition is_stack (stack : Z) : Prop :=
  PRS_MAX_STACK_SIZE < stack < 2 ^ wbits.

(** A reservation the platform may hand out: failure, or the base of a
    range of [PRS_MAX_STACK_SIZE] bytes whose end is an address. *)
Definition reservation_ok (base : Z) : Prop :=
  base = 0 \/ (0 < base /\ base + PRS_MAX_STACK_SIZE < 2 ^ wbits).

Definition platform_ok (w : world) : Prop :=
  Forall reservation_ok (map_results w).

(** The bytes the guard page and the extra pages take, on the platform that
    has them ([extra_size] of [prs_stack_create], the growth increment of
    [prs_stack_grow]). *)
Definition guard_overhead : Z :=
  match PRS_PAL_OS with
  | PRS_PAL_OS_WINDOWS => page_size * (1 + PRS_STACK_EXTRA_PAGES PRS_PAL_OS)
  | PRS_PAL_OS_LINUX => 0
  end.

(** A committed size as the caller holds it: a whole number of pages, at
    most the ceiling. *)
Definition committed_size_ok (size : Z) : Prop :=
  0 <= size <= PRS_MAX_STACK_SIZE /\ (page_size | size).

(** The rounded-up value of [size] is a [prs_size_t]; beyond that the spec
    does not say what [prs_bitops_align_size] returns. *)
Definition align_defined (size : Z) : Prop :=
  round_up size page_size < 2 ^ wbits.

(** The commits of a successful [prs_stack_create] on the reservation at
    [base], for the page-aligned size [aligned]. *)
Definition create_commits (base aligned : Z) : list mem_event :=
  let stack_limit := base + PRS_MAX_STACK_SIZE - aligned in
  match PRS_PAL_OS with
  | PRS_PAL_OS_WINDOWS =>
      [EvCommit (stack_limit - guard_overhead)
         (page_size * PRS_STACK_EXTRA_PAGES PRS_PAL_OS) RW;
       EvCommit (stack_limit - page_size) page_size GRW;
       EvCommit stack_limit aligned RW]
  | PRS_PAL_OS_LINUX => [EvCommit stack_limit aligned RW]
  end.

(** The commits of a successful [prs_stack_grow], as the code computes
    them (stack.c, lines 170-185). *)
Definition grow_commits (stack old_size failed_ptr : Z) : list mem_event :=
  let grow_size := grow_size stack old_size failed_ptr in
  let aligned_new_size := aligned_new_size stack old_size failed_ptr in
  let stack_bottom := usub stack PRS_MAX_STACK_SIZE in
  let protected_size := usub PRS_MAX_STACK_SIZE aligned_new_size in
  let stack_limit := uadd stack_bottom protected_size in
  match PRS_PAL_OS with
  | PRS_PAL_OS_WINDOWS =>
      [EvCommit (usub stack_limit grow_size)
         (umul page_size (PRS_STACK_EXTRA_PAGES PRS_PAL_OS)) RW;
       EvCommit (usub stack_limit page_size) page_size GRW;
       EvCommit stack_limit grow_size RW]
  | PRS_PAL_OS_LINUX => [EvCommit stack_limit grow_size RW]
  end.

(** The caller's side of growth: one [prs_stack_grow] per faulting address,
    each with the size the previous call wrote as its [old_size].  The result
    is the list of the sizes written, when every call returned [PRS_TRUE]. *)
Fixpoint grow_chain (stack old_size new_size : Z) (faults : list Z) (w : world)
    : option (list Z * world) :=
  match faults with
  | [] => Some ([], w)
  | failed_ptr :: faults' =>
      match prs_stack_grow stack old_size failed_ptr new_size w with
      | Done true w' =>
          match store w' !! new_size with
          | Some size =>
              match grow_chain stack size new_size faults' w' with
              | Some (sizes, w'') => Some (size :: sizes, w'')
              | None => None
              end
          | None => None
          end
      | _ => None
      end
  end.

(** Nothing of the reservation at [base] is held: no reservation starts
    there and no commit lies in its [PRS_MAX_STACK_SIZE] bytes. *)
Definition range_free (base : Z) (r : resources) : Prop :=
  Forall (fun b => fst b <> base) (reserved r) /\
  Forall (fun c => within base PRS_MAX_STACK_SIZE (fst (fst c)) (snd (fst c)) = false)
         (committed r).

(** A commit of a range that lies in [[low, high)]. *)
Definition commit_within (low high : Z) (e : mem_event) : Prop :=
  match e with
  | EvCommit addr size _ => low <= addr /\ 0 <= size /\ addr + size <= high
  | _ => False
  end.


(** Unfolding of the monad and of the platform primitives in a run. *)
Ltac run :=
  unfold bind, ret, PRS_PRECONDITION, PRS_ASSERT, prs_pal_mem_map,
    prs_pal_mem_commit, prs_pal_mem_unmap, store_size,
    prs_pal_os_get_page_size in *; cbn [map_results trace store] in *.

Ltac done_inv H := inversion H; subst; clear H.

(** ** Arithmetic *)

Lemma wrap_small (z : Z) : 0 <= z < 2 ^ wbits -> wrap z = z.
Proof. intros H. unfold wrap. now apply Z.mod_small. Qed.

Lemma wrap_range (z : Z) : 0 < 2 ^ wbits -> 0 <= wrap z < 2 ^ wbits.
Proof. intros H. unfold wrap. now apply Z.mod_pos_bound. Qed.

Lemma round_up_bounds (s p : Z) :
  0 < p -> s <= round_up s p < s + p.
Proof.
  intros Hp. unfold round_up.
  pose proof (Z.div_mod (s + p - 1) p ltac:(lia)) as Hdm.
  pose proof (Z.mod_pos_bound (s + p - 1) p Hp) as Hr.
  lia.
Qed.

Lemma round_up_divide (s p : Z) : (p | round_up s p).
Proof. exists ((s + p - 1) / p). reflexivity. Qed.

Lemma round_up_multiple (s p : Z) :
  0 < p -> (p | s) -> round_up s p = s.
Proof.
  intros Hp [k ->]. unfold round_up.
  replace (k * p + p - 1) with ((p - 1) + k * p) by lia.
  rewrite Z.div_add by lia.
  rewrite (Z.div_small (p - 1) p) by lia. lia.
Qed.

Lemma round_up_least (s p m : Z) :
  0 < p -> (p | m) -> s <= m -> round_up s p <= m.
Proof.
  intros Hp [k ->] Hs.
  pose proof (round_up_bounds s p Hp) as Hb.
  destruct (round_up_divide s p) as [q Hq]. rewrite Hq in *.
  destruct (Z_le_gt_dec q k) as [Hle | Hgt].
  - apply Z.mul_le_mono_nonneg_r; lia.
  - assert ((k + 1) * p <= q * p) by (apply Z.mul_le_mono_nonneg_r; lia).
    lia.
Qed.

Lemma align_size_exact (s : Z) :
  0 <= round_up s page_size -> align_defined s ->
  prs_bitops_align_size s page_size = round_up s page_size.
Proof. intros H0 H1. unfold prs_bitops_align_size. now apply wrap_small. Qed.

Lemma gtb_false (a b : Z) : a <= b -> (a >? b) = false.
Proof. intros H. rewrite Z.gtb_ltb. now apply Z.ltb_ge. Qed.

Lemma gtb_true (a b : Z) : b < a -> (a >? b) = true.
Proof. intros H. rewrite Z.gtb_ltb. now apply Z.ltb_lt. Qed.

Lemma eqb_false (a b : Z) : a <> b -> (a =? b) = false.
Proof. intros H. now apply Z.eqb_neq. Qed.

(** ** [prs_stack_address_in_range] *)

Lemma address_in_range_true (stack address : Z) :
  prs_stack_address_in_range stack address = true <->
  usub stack PRS_MAX_STACK_SIZE <= address < stack.
Proof.
  unfold prs_stack_address_in_range. cbv zeta.
  rewrite andb_true_iff, Z.geb_leb, Z.leb_le, Z.ltb_lt. tauto.
Qed.

Lemma stack_bottom_exact (stack : Z) :
  PRS_MAX_STACK_SIZE <= stack < 2 ^ wbits -> 0 <= PRS_MAX_STACK_SIZE ->
  usub stack PRS_MAX_STACK_SIZE = stack - PRS_MAX_STACK_SIZE.
Proof. intros H H0. unfold usub. apply wrap_small. lia. Qed.

(** C3.  The range test is a total function of its two arguments (it has
    no world argument and no [Fatal] outcome).  For a stack whose
    reservation lies in the address space it is true exactly on the
    half-open interval [[stack - PRS_MAX_STACK_SIZE, stack)]: true at
    [stack - 1] and at [stack - PRS_MAX_STACK_SIZE], false at [stack] and at
    the address just below the reservation. *)
Theorem address_in_range_interval (stack address : Z) :
  0 < PRS_MAX_STACK_SIZE ->
  PRS_MAX_STACK_SIZE <= stack < 2 ^ wbits ->
  (prs_stack_address_in_range stack address = true <->
     stack - PRS_MAX_STACK_SIZE <= address < stack) /\
  prs_stack_address_in_range stack (stack - 1) = true /\
  prs_stack_address_in_range stack (stack - PRS_MAX_STACK_SIZE) = true /\
  prs_stack_address_in_range stack stack = false /\
  prs_stack_address_in_range stack (usub (stack - PRS_MAX_STACK_SIZE) 1) = false.
Proof.
  intros Hmax Hstack.
  assert (Hbottom : usub stack PRS_MAX_STACK_SIZE = stack - PRS_MAX_STACK_SIZE)
    by (apply stack_bottom_exact; lia).
  assert (Hiff : forall a, prs_stack_address_in_range stack a = true <->
                           stack - PRS_MAX_STACK_SIZE <= a < stack)
    by (intros a; rewrite address_in_range_true, Hbottom; reflexivity).
  split; [apply Hiff |].
  split; [apply Hiff; lia |].
  split; [apply Hiff; lia |].
  split; apply not_true_is_false; rewrite Hiff.
  - lia.
  - assert (H2 : 0 < 2 ^ wbits) by lia.
    destruct (Z.eq_dec stack PRS_MAX_STACK_SIZE) as [-> | Hne].
    + replace (PRS_MAX_STACK_SIZE - PRS_MAX_STACK_SIZE) with 0 by lia.
      unfold usub. replace (0 - 1) with (-1) by lia. unfold wrap.
      rewrite <- (Z.mod_add (-1) 1 (2 ^ wbits)) by lia.
      rewrite Z.mod_small by lia. lia.
    + unfold usub. rewrite wrap_small by lia. lia.
Qed.


(** ** [prs_stack_create] *)

Lemma create_success_world (size available_size base : Z) (rest : list Z) (w : world) :
  0 < page_size -> 0 < size ->
  round_up size page_size + guard_overhead <= PRS_MAX_STACK_SIZE ->
  map_results w = base :: rest ->
  0 < base -> base + PRS_MAX_STACK_SIZE < 2 ^ wbits ->
  prs_stack_create size available_size w =
    Done (base + PRS_MAX_STACK_SIZE)
         (World rest
            (trace w ++ EvMap PRS_MAX_STACK_SIZE PRS_PAL_MEM_FLAG_NONE base
               :: create_commits base (round_up size page_size))
            (<[available_size := round_up size page_size]> (store w))).
Proof.
  intros Hpage Hsize Hceil Hmap Hbase Hend.
  pose proof (round_up_bounds size page_size Hpage) as Hb.
  set (a := round_up size page_size) in *.
  assert (Hov : 0 <= guard_overhead)
    by (unfold guard_overhead; destruct PRS_PAL_OS; simpl; lia).
  assert (Ha : prs_bitops_align_size size page_size = a)
    by (apply align_size_exact; unfold align_defined; fold a; lia).
  assert (Haa : prs_bitops_align_size a page_size = a).
  { unfold prs_bitops_align_size.
    rewrite round_up_multiple by (trivial; apply round_up_divide).
    apply wrap_small. lia. }
  unfold prs_stack_create. run.
  rewrite gtb_true by lia. rewrite Ha, Haa.
  rewrite gtb_false by lia. rewrite Z.eqb_refl, Hmap.
  rewrite eqb_false by lia.
  unfold usub, uadd, umul.
  rewrite (wrap_small (PRS_MAX_STACK_SIZE - a)) by lia.
  rewrite (wrap_small (base + (PRS_MAX_STACK_SIZE - a))) by lia.
  rewrite (wrap_small (base + PRS_MAX_STACK_SIZE)) by lia.
  unfold create_commits, guard_overhead in *.
  destruct PRS_PAL_OS; cbn [PRS_STACK_EXTRA_PAGES] in *.
  - rewrite (wrap_small (page_size * (1 + 3))) by lia.
    rewrite (wrap_small (PRS_MAX_STACK_SIZE - page_size * (1 + 3))) by lia.
    rewrite gtb_false by lia.
    rewrite (wrap_small (page_size * 3)) by lia.
    rewrite !wrap_small by lia.
    cbn [map_results trace store]. rewrite <- !app_assoc. cbn [app].
    replace (base + (PRS_MAX_STACK_SIZE - a)) with (base + PRS_MAX_STACK_SIZE - a) by lia.
    reflexivity.
  - cbn [map_results trace store]. rewrite <- !app_assoc. cbn [app].
    replace (base + (PRS_MAX_STACK_SIZE - a)) with (base + PRS_MAX_STACK_SIZE - a) by lia.
    reflexivity.
Qed.

(** C1.  A request [size > 0] whose page-aligned size, together with the
    guard and extra pages on the platform that has them, is within
    [PRS_MAX_STACK_SIZE], and for which the platform hands out the
    reservation at [base]: [prs_stack_create] returns the non-null address
    [base + PRS_MAX_STACK_SIZE] and writes to [*available_size] the size
    rounded up to the next multiple of the page size, which is at most
    [PRS_MAX_STACK_SIZE]. *)
Theorem create_returns_top_and_aligned_size
    (size available_size base : Z) (rest : list Z) (w : world) :
  0 < page_size -> 0 < size ->
  round_up size page_size + guard_overhead <= PRS_MAX_STACK_SIZE ->
  map_results w = base :: rest ->
  0 < base -> base + PRS_MAX_STACK_SIZE < 2 ^ wbits ->
  exists w',
    prs_stack_create size available_size w = Done (base + PRS_MAX_STACK_SIZE) w' /\
    base + PRS_MAX_STACK_SIZE <> 0 /\
    store w' !! available_size = Some (round_up size page_size) /\
    (page_size | round_up size page_size) /\
    size <= round_up size page_size < size + page_size /\
    (forall m, (page_size | m) -> size <= m -> round_up size page_size <= m) /\
    round_up size page_size <= PRS_MAX_STACK_SIZE.
Proof.
  intros Hpage Hsize Hceil Hmap Hbase Hend.
  pose proof (round_up_bounds size page_size Hpage) as Hb.
  assert (Hov : 0 <= guard_overhead)
    by (unfold guard_overhead; destruct PRS_PAL_OS; simpl; lia).
  eexists. split; [apply (create_success_world size available_size base rest w); assumption |].
  cbn [store]. rewrite lookup_insert_eq.
  repeat split; try lia.
  - apply round_up_divide.
  - intros m Hm Hle. now apply round_up_least.
Qed.

Lemma guard_overhead_nonneg : 0 < page_size -> 0 <= guard_overhead.
Proof. intros H. unfold guard_overhead. destruct PRS_PAL_OS; simpl; lia. Qed.

(** Every way [prs_stack_create] returns: a failure, which leaves the
    output cell alone and has issued at most the reservation, or a success on
    the reservation at [base]. *)
Lemma create_inv (size available_size stack : Z) (w w' : world) :
  0 < page_size -> guard_overhead <= PRS_MAX_STACK_SIZE -> platform_ok w ->
  prs_stack_create size available_size w = Done stack w' ->
  (stack = 0 /\ store w' = store w /\
   (trace w' = trace w \/
    exists b, trace w' = trace w ++ [EvMap PRS_MAX_STACK_SIZE PRS_PAL_MEM_FLAG_NONE b])) \/
  (exists base rest,
     let aligned := prs_bitops_align_size size page_size in
     map_results w = base :: rest /\
     0 < base /\ base + PRS_MAX_STACK_SIZE < 2 ^ wbits /\
     stack = base + PRS_MAX_STACK_SIZE /\
     0 <= aligned /\ aligned + guard_overhead <= PRS_MAX_STACK_SIZE /\
     w' = World rest
            (trace w ++ EvMap PRS_MAX_STACK_SIZE PRS_PAL_MEM_FLAG_NONE base
               :: create_commits base aligned)
            (<[available_size := aligned]> (store w))).
Proof.
  intros Hpage Hroom Hplat Hrun.
  pose proof (guard_overhead_nonneg Hpage) as Hov.
  unfold prs_stack_create in Hrun. run.
  destruct (size >? 0); [| discriminate].
  set (a := prs_bitops_align_size size page_size) in *.
  destruct (a >? PRS_MAX_STACK_SIZE) eqn:Hceil.
  { done_inv Hrun. left. auto. }
  destruct (a =? prs_bitops_align_size a page_size); [| discriminate].
  destruct (map_results w) as [| base rest] eqn:Hmap; cbn [map_results trace store] in Hrun.
  { done_inv Hrun. left. cbn. eauto. }
  destruct (base =? 0) eqn:Hnull.
  { done_inv Hrun. left. cbn. eauto. }
  apply Z.eqb_neq in Hnull.
  unfold platform_ok in Hplat. rewrite Hmap in Hplat.
  apply Forall_inv in Hplat. destruct Hplat as [? | [Hbase Hend]]; [contradiction |].
  rewrite Z.gtb_ltb in Hceil. apply Z.ltb_ge in Hceil.
  assert (Ha : 0 <= a < 2 ^ wbits) by (apply wrap_range; lia).
  unfold usub, uadd, umul in Hrun.
  rewrite (wrap_small (PRS_MAX_STACK_SIZE - a)) in Hrun by lia.
  rewrite (wrap_small (base + (PRS_MAX_STACK_SIZE - a))) in Hrun by lia.
  rewrite (wrap_small (base + PRS_MAX_STACK_SIZE)) in Hrun by lia.
  unfold create_commits, guard_overhead in *.
  destruct PRS_PAL_OS; cbn [PRS_STACK_EXTRA_PAGES] in *.
  - rewrite (wrap_small (page_size * (1 + 3))) in Hrun by lia.
    rewrite (wrap_small (PRS_MAX_STACK_SIZE - page_size * (1 + 3))) in Hrun by lia.
    destruct (a >? PRS_MAX_STACK_SIZE - page_size * (1 + 3)) eqn:Hguard.
    { done_inv Hrun. left. cbn. eauto. }
    rewrite Z.gtb_ltb in Hguard. apply Z.ltb_ge in Hguard.
    rewrite (wrap_small (page_size * 3)) in Hrun by lia.
    rewrite !wrap_small in Hrun by lia.
    done_inv Hrun. right. exists base, rest. cbv zeta.
    repeat (split; [first [reflexivity | lia] |]).
    cbn [map_results trace store]. rewrite <- !app_assoc. cbn [app].
    replace (base + (PRS_MAX_STACK_SIZE - a)) with (base + PRS_MAX_STACK_SIZE - a) by lia.
    reflexivity.
  - done_inv Hrun. right. exists base, rest. cbv zeta.
    repeat (split; [first [reflexivity | lia] |]).
    cbn [map_results trace store]. rewrite <- !app_assoc. cbn [app].
    replace (base + (PRS_MAX_STACK_SIZE - a)) with (base + PRS_MAX_STACK_SIZE - a) by lia.
    reflexivity.
Qed.

(** ** [prs_stack_grow] *)

(** The two results of [prs_stack_grow]: [PRS_FALSE] leaves the world as it
    was, [PRS_TRUE] has passed the precondition, the assertion and the
    checks against the ceiling, has issued [grow_commits] and has written
    [aligned_new_size] to the output cell. *)
Lemma grow_false_inv (stack old_size failed_ptr new_size : Z) (w w' : world) :
  prs_stack_grow stack old_size failed_ptr new_size w = Done false w' ->
  w' = w.
Proof.
  unfold prs_stack_grow, grow_assertion. run. intros Hrun.
  destruct (negb (stack =? 0)); [| discriminate].
  destruct PRS_PAL_OS.
  - destruct (_ >? PRS_MAX_STACK_SIZE); [now done_inv Hrun |].
    destruct (_ >? usub _ _); [now done_inv Hrun | discriminate].
  - destruct (_ >? old_size); [| discriminate].
    destruct (_ >? PRS_MAX_STACK_SIZE); [now done_inv Hrun | discriminate].
Qed.

Lemma grow_true_inv (stack old_size failed_ptr new_size : Z) (w w' : world) :
  prs_stack_grow stack old_size failed_ptr new_size w = Done true w' ->
  stack <> 0 /\
  (PRS_PAL_OS = PRS_PAL_OS_LINUX -> old_size < usub stack failed_ptr) /\
  aligned_new_size stack old_size failed_ptr <= PRS_MAX_STACK_SIZE /\
  (PRS_PAL_OS = PRS_PAL_OS_WINDOWS ->
     aligned_new_size stack old_size failed_ptr <=
       usub PRS_MAX_STACK_SIZE (grow_size stack old_size failed_ptr)) /\
  w' = World (map_results w)
             (trace w ++ grow_commits stack old_size failed_ptr)
             (<[new_size := aligned_new_size stack old_size failed_ptr]> (store w)).
Proof.
  unfold prs_stack_grow, grow_assertion, grow_commits. run. intros Hrun.
  destruct (stack =? 0) eqn:Hnull; [discriminate |]. apply Z.eqb_neq in Hnull.
  cbn [negb] in Hrun.
  destruct PRS_PAL_OS.
  - destruct (_ >? PRS_MAX_STACK_SIZE) eqn:Hceil; [discriminate |].
    destruct (_ >? usub _ _) eqn:Hroom; [discriminate |].
    rewrite Z.gtb_ltb in Hceil, Hroom. apply Z.ltb_ge in Hceil, Hroom.
    done_inv Hrun.
    repeat (split; [first [assumption | discriminate | intros _; assumption] |]).
    rewrite <- !app_assoc. reflexivity.
  - destruct (_ >? old_size) eqn:Hassert; [| discriminate].
    destruct (_ >? PRS_MAX_STACK_SIZE) eqn:Hceil; [discriminate |].
    rewrite Z.gtb_ltb in Hceil, Hassert.
    apply Z.ltb_ge in Hceil. apply Z.ltb_lt in Hassert.
    done_inv Hrun.
    repeat (split; [first [assumption | discriminate | intros _; assumption] |]).
    reflexivity.
Qed.

(** Conversely, a call that meets the precondition, the assertion and the
    checks returns [PRS_TRUE]. *)
Lemma grow_succeeds (stack old_size failed_ptr new_size : Z) (w : world) :
  stack <> 0 ->
  (PRS_PAL_OS = PRS_PAL_OS_LINUX -> old_size < usub stack failed_ptr) ->
  aligned_new_size stack old_size failed_ptr <= PRS_MAX_STACK_SIZE ->
  (PRS_PAL_OS = PRS_PAL_OS_WINDOWS ->
     aligned_new_size stack old_size failed_ptr <=
       usub PRS_MAX_STACK_SIZE (grow_size stack old_size failed_ptr)) ->
  prs_stack_grow stack old_size failed_ptr new_size w =
    Done true
      (World (map_results w)
             (trace w ++ grow_commits stack old_size failed_ptr)
             (<[new_size := aligned_new_size stack old_size failed_ptr]> (store w))).
Proof.
  intros Hnull Hassert Hceil Hroom.
  unfold prs_stack_grow, grow_assertion, grow_commits. run.
  rewrite eqb_false by assumption. cbn [negb].
  rewrite (gtb_false _ _ Hceil).
  destruct PRS_PAL_OS.
  - rewrite (gtb_false _ _ (Hroom eq_refl)).
    rewrite <- !app_assoc. reflexivity.
  - rewrite (gtb_true _ _ (Hassert eq_refl)). reflexivity.
Qed.

Lemma windows_grow_size :
  PRS_PAL_OS = PRS_PAL_OS_WINDOWS ->
  0 <= guard_overhead < 2 ^ wbits ->
  forall stack old_size failed_ptr,
    grow_size stack old_size failed_ptr = guard_overhead.
Proof.
  intros Hos Hfit stack old_size failed_ptr.
  unfold grow_size, guard_overhead, prs_pal_os_get_page_size in *.
  rewrite Hos in *. unfold umul.
  rewrite Z.mul_comm. now apply wrap_small.
Qed.

Lemma windows_new_size (stack old_size failed_ptr : Z) :
  PRS_PAL_OS = PRS_PAL_OS_WINDOWS ->
  0 <= guard_overhead -> 0 <= old_size ->
  old_size + guard_overhead < 2 ^ wbits ->
  aligned_new_size stack old_size failed_ptr = old_size + guard_overhead.
Proof.
  intros Hos Hov Hold Hfit.
  pose proof (windows_grow_size Hos ltac:(lia) stack old_size failed_ptr) as Hg.
  unfold aligned_new_size. rewrite Hg. rewrite Hos.
  unfold uadd. apply wrap_small. lia.
Qed.

Lemma linux_new_size (stack old_size failed_ptr : Z) :
  PRS_PAL_OS = PRS_PAL_OS_LINUX ->
  0 <= usub stack failed_ptr -> 0 < page_size ->
  align_defined (usub stack failed_ptr) ->
  aligned_new_size stack old_size failed_ptr =
    round_up (usub stack failed_ptr) page_size.
Proof.
  intros Hos Hreq Hpage Hdef.
  unfold aligned_new_size, prs_pal_os_get_page_size. rewrite Hos.
  apply align_size_exact; [| assumption].
  pose proof (round_up_bounds (usub stack failed_ptr) page_size Hpage). lia.
Qed.

(** A fault inside the reservation of a stack, which is what
    [prs_stack_address_in_range] tells the handler before it grows the stack,
    has a distance to [stack] whose rounded-up value is a [prs_size_t]. *)
Lemma fault_in_range_align_defined (stack failed_ptr : Z) :
  0 < page_size -> 0 <= PRS_MAX_STACK_SIZE ->
  PRS_MAX_STACK_SIZE + page_size <= 2 ^ wbits ->
  is_stack stack ->
  prs_stack_address_in_range stack failed_ptr = true ->
  align_defined (usub stack failed_ptr).
Proof.
  intros Hpage Hmax Hfit [Hlow Hhigh] Hin.
  apply address_in_range_true in Hin.
  rewrite stack_bottom_exact in Hin by lia.
  unfold align_defined, usub. rewrite wrap_small by lia.
  pose proof (round_up_bounds (stack - failed_ptr) page_size Hpage). lia.
Qed.

(** C2.  A call of [prs_stack_grow] that returns [PRS_TRUE] has written the
    size the platform's policy gives: with the guard page, [old_size] plus
    the guard page and the extra pages, whatever [failed_ptr] is; with the
    alternate handler stack, the distance from [failed_ptr] to [stack],
    rounded up to the next multiple of the page size. *)
Theorem grow_new_size_policy
    (stack old_size failed_ptr new_size : Z) (w w' : world) :
  0 < page_size -> 0 <= old_size ->
  (PRS_PAL_OS = PRS_PAL_OS_WINDOWS -> old_size + guard_overhead < 2 ^ wbits) ->
  (PRS_PAL_OS = PRS_PAL_OS_LINUX ->
     failed_ptr <= stack /\ align_defined (stack - failed_ptr)) ->
  prs_stack_grow stack old_size failed_ptr new_size w = Done true w' ->
  store w' !! new_size =
    Some (match PRS_PAL_OS with
          | PRS_PAL_OS_WINDOWS =>
              old_size + (1 + PRS_STACK_EXTRA_PAGES PRS_PAL_OS) * page_size
          | PRS_PAL_OS_LINUX => round_up (stack - failed_ptr) page_size
          end).
Proof.
  intros Hpage Hold Hwin Hlin Hrun.
  apply grow_true_inv in Hrun as (_ & Hassert & _ & _ & ->).
  cbn [store]. rewrite lookup_insert_eq. f_equal.
  pose proof (guard_overhead_nonneg Hpage) as Hov.
  destruct PRS_PAL_OS eqn:Hos.
  - rewrite windows_new_size by auto.
    unfold guard_overhead. rewrite Hos. lia.
  - destruct (Hlin eq_refl) as [Hptr Hdef].
    specialize (Hassert eq_refl).
    assert (Hreq : usub stack failed_ptr = stack - failed_ptr).
    { unfold usub in *. unfold wrap in *.
      destruct (Z_lt_le_dec (stack - failed_ptr) (2 ^ wbits)).
      - apply Z.mod_small. lia.
      - unfold align_defined in Hdef.
        pose proof (round_up_bounds (stack - failed_ptr) page_size Hpage). lia. }
    rewrite linux_new_size; rewrite ?Hreq; auto; lia.
Qed.

(** C5.  When the new size [prs_stack_grow] computes does not fit under the
    ceiling together with the guard and extra pages of the platform (none
    with the alternate handler stack), a call that meets the precondition
    and the assertion returns [PRS_FALSE] in the world it started from: no
    commit is issued, nothing is written. *)
Theorem grow_past_ceiling_fails
    (stack old_size failed_ptr new_size : Z) (w : world) :
  0 < page_size ->
  guard_overhead <= PRS_MAX_STACK_SIZE -> PRS_MAX_STACK_SIZE < 2 ^ wbits ->
  stack <> 0 ->
  (PRS_PAL_OS = PRS_PAL_OS_LINUX -> old_size < usub stack failed_ptr) ->
  PRS_MAX_STACK_SIZE < aligned_new_size stack old_size failed_ptr + guard_overhead ->
  prs_stack_grow stack old_size failed_ptr new_size w = Done false w.
Proof.
  intros Hpage Hroom Hfit Hnull Hassert Hpast.
  pose proof (guard_overhead_nonneg Hpage) as Hov.
  unfold prs_stack_grow, grow_assertion. run.
  rewrite eqb_false by assumption. cbn [negb].
  destruct PRS_PAL_OS eqn:Hos.
  - destruct (_ >? PRS_MAX_STACK_SIZE); [reflexivity |].
    rewrite <- Hos.
    rewrite (windows_grow_size Hos ltac:(lia) stack old_size failed_ptr).
    unfold usub. rewrite wrap_small by lia.
    rewrite gtb_true by lia. reflexivity.
  - rewrite (gtb_true _ _ (Hassert eq_refl)).
    unfold guard_overhead in Hpast. rewrite Hos in Hpast.
    rewrite gtb_true by lia. reflexivity.
Qed.

(** One successful call, from a committed size the caller holds. *)
Lemma grow_step (stack old_size failed_ptr new_size : Z) (w w' : world) :
  0 < page_size -> committed_size_ok old_size ->
  PRS_MAX_STACK_SIZE + guard_overhead < 2 ^ wbits ->
  (PRS_PAL_OS = PRS_PAL_OS_LINUX -> align_defined (usub stack failed_ptr)) ->
  prs_stack_grow stack old_size failed_ptr new_size w = Done true w' ->
  exists size,
    store w' !! new_size = Some size /\ old_size < size /\ committed_size_ok size.
Proof.
  intros Hpage [Hold Hdiv] Hfit Hdef Hrun.
  pose proof (guard_overhead_nonneg Hpage) as Hov.
  apply grow_true_inv in Hrun as (_ & Hassert & Hceil & _ & ->).
  eexists. split; [cbn [store]; apply lookup_insert_eq |].
  unfold committed_size_ok.
  destruct PRS_PAL_OS eqn:Hos.
  - rewrite windows_new_size in * by (auto; lia).
    assert (Hg : (page_size | guard_overhead))
      by (unfold guard_overhead; rewrite Hos; apply Z.divide_factor_l).
    assert (0 < guard_overhead)
      by (unfold guard_overhead; rewrite Hos; simpl; lia).
    repeat split; try lia. now apply Z.divide_add_r.
  - specialize (Hassert eq_refl). specialize (Hdef eq_refl).
    rewrite linux_new_size in * by (auto; lia).
    pose proof (round_up_bounds (usub stack failed_ptr) page_size Hpage).
    repeat split; try lia. apply round_up_divide.
Qed.

(** C6.  Along any sequence of successful [prs_stack_grow] calls on one
    stack, started from a committed size the caller holds, the sizes written
    are strictly increasing from [old_size] on, and each is a whole number of
    pages that is at most [PRS_MAX_STACK_SIZE].  (A single call is the
    sequence of one fault.) *)
Theorem grow_chain_strictly_increasing
    (stack new_size : Z) (faults : list Z) :
  0 < page_size ->
  PRS_MAX_STACK_SIZE + guard_overhead < 2 ^ wbits ->
  Forall (fun failed_ptr =>
            PRS_PAL_OS = PRS_PAL_OS_LINUX ->
            align_defined (usub stack failed_ptr)) faults ->
  forall (old_size : Z) (w : world) (sizes : list Z) (w' : world),
    committed_size_ok old_size ->
    grow_chain stack old_size new_size faults w = Some (sizes, w') ->
    StronglySorted Z.lt (old_size :: sizes) /\
    Forall committed_size_ok sizes /\
    length sizes = length faults.
Proof.
  intros Hpage Hfit Hdef.
  induction Hdef as [| failed_ptr faults Hptr _ IH];
    intros old_size w sizes w' Hold Hrun; cbn [grow_chain] in Hrun.
  - inversion Hrun; subst. repeat constructor.
  - destruct (prs_stack_grow stack old_size failed_ptr new_size w)
      as [[|] w1 |] eqn:Hgrow; try discriminate.
    destruct (grow_step stack old_size failed_ptr new_size w w1
                Hpage Hold Hfit Hptr Hgrow) as (size & Hsize & Hlt & Hok).
    rewrite Hsize in Hrun.
    destruct (grow_chain stack size new_size faults w1) as [[sizes1 w2] |] eqn:Hrest;
      [| discriminate].
    inversion Hrun; subst sizes w'; clear Hrun.
    destruct (IH _ _ _ _ Hok Hrest) as (Hsorted & Hall & Hlen).
    split; [| split].
    + constructor; [assumption |].
      constructor; [assumption |].
      apply StronglySorted_inv in Hsorted as [_ Hbelow].
      eapply Forall_impl; [exact Hbelow |].
      intros x Hx. cbv beta in *. lia.
    + now constructor.
    + cbn [length]. now rewrite Hlen.
Qed.

(** C9.  With the alternate handler stack, a fault address inside the
    reservation of a stack and strictly below its committed region makes the
    asserted inequality true: the assertion passes, and [prs_stack_grow]
    returns instead of terminating the program. *)
Theorem grow_assertion_holds_below_committed
    (stack old_size failed_ptr new_size : Z) (w : world) :
  PRS_PAL_OS = PRS_PAL_OS_LINUX ->
  0 < PRS_MAX_STACK_SIZE -> is_stack stack -> 0 <= old_size ->
  stack - PRS_MAX_STACK_SIZE <= failed_ptr ->
  failed_ptr < stack - old_size ->
  old_size < usub stack failed_ptr /\
  grow_assertion stack old_size failed_ptr w = Done tt w /\
  exists (r : bool) (w' : world),
    prs_stack_grow stack old_size failed_ptr new_size w = Done r w'.
Proof.
  intros Hos Hmax [Hlow Hhigh] Hold Hin Hbelow.
  assert (Hreq : usub stack failed_ptr = stack - failed_ptr)
    by (unfold usub; apply wrap_small; lia).
  assert (Hlt : old_size < usub stack failed_ptr) by lia.
  split; [assumption |].
  split.
  - unfold grow_assertion, PRS_ASSERT. rewrite Hos.
    now rewrite gtb_true.
  - unfold prs_stack_grow, grow_assertion. run. rewrite Hos.
    rewrite eqb_false by lia. cbn [negb].
    rewrite gtb_true by assumption.
    destruct (_ >? PRS_MAX_STACK_SIZE); eauto.
Qed.

(** C10.  A call that reports failure has not written its output cell:
    after [prs_stack_create] returns null, or [prs_stack_grow] returns
    [PRS_FALSE], the caller's cells hold what they held before the call. *)
Theorem failure_leaves_outputs_unwritten
    (size available_size stack old_size failed_ptr new_size : Z) (w w' : world) :
  0 <= PRS_MAX_STACK_SIZE -> platform_ok w ->
  prs_stack_create size available_size w = Done 0 w' \/
  prs_stack_grow stack old_size failed_ptr new_size w = Done false w' ->
  store w' = store w.
Proof.
  intros Hmax Hplat [Hrun | Hrun].
  - unfold prs_stack_create in Hrun. run.
    destruct (size >? 0); [| discriminate].
    destruct (_ >? PRS_MAX_STACK_SIZE); [now done_inv Hrun |].
    destruct (_ =? _); [| discriminate].
    destruct (map_results w) as [| base rest] eqn:Hmap;
      cbn [map_results trace store] in Hrun; [now done_inv Hrun |].
    destruct (base =? 0) eqn:Hnull; [now done_inv Hrun |].
    apply Z.eqb_neq in Hnull.
    unfold platform_ok in Hplat. rewrite Hmap in Hplat.
    apply Forall_inv in Hplat. destruct Hplat as [? | [Hbase Hend]]; [contradiction |].
    assert (Htop : uadd base PRS_MAX_STACK_SIZE <> 0)
      by (unfold uadd; rewrite wrap_small; lia).
    destruct PRS_PAL_OS.
    + destruct (_ >? usub _ _); [now done_inv Hrun |].
      inversion Hrun. contradiction.
    + inversion Hrun. contradiction.
  - apply grow_false_inv in Hrun. now subst.
Qed.

(** ** [prs_stack_destroy] *)

Lemma outstanding_app (t t' : list mem_event) :
  outstanding (t ++ t') = outstanding_from (outstanding t) t'.
Proof. unfold outstanding, outstanding_from. apply fold_left_app. Qed.

Lemma filter_keeps_all {A : Type} (f : A -> bool) (l : list A) :
  Forall (fun x => f x = true) l -> List.filter f l = l.
Proof.
  induction 1 as [| x l Hx _ IH]; cbn [List.filter]; [reflexivity |].
  now rewrite Hx, IH.
Qed.

Lemma filter_holds {A : Type} (f : A -> bool) (l : list A) :
  Forall (fun x => f x = true) (List.filter f l).
Proof.
  induction l as [| x l IH]; cbn [List.filter]; [constructor |].
  destruct (f x) eqn:Hx; [constructor |]; assumption.
Qed.

Lemma unmap_frees_range (base : Z) (r : resources) :
  range_free base (apply_event r (EvUnmap base PRS_MAX_STACK_SIZE)).
Proof.
  unfold range_free. cbn [apply_event reserved committed]. split.
  - eapply Forall_impl; [apply filter_holds |].
    intros b Hb. cbv beta in Hb. apply negb_true_iff, Z.eqb_neq in Hb. exact Hb.
  - eapply Forall_impl; [apply filter_holds |].
    intros c Hc. cbv beta in Hc. now apply negb_true_iff in Hc.
Qed.

Lemma within_true (base size addr len : Z) :
  base <= addr -> addr + len <= base + size -> within base size addr len = true.
Proof.
  intros H1 H2. unfold within.
  apply andb_true_iff. split; now apply Z.leb_le.
Qed.

(** C8.  For a stack that [prs_stack_create] returned, [prs_stack_destroy]
    computes the base of the reservation and issues one call, the unmapping
    of the [PRS_MAX_STACK_SIZE] bytes from that base; after it the platform
    holds neither the reservation nor a commit inside it, and a stack
    destroyed right after its creation leaves the platform holding what it
    held before. *)
Theorem destroy_unmaps_whole_reservation
    (size available_size stack : Z) (w0 w1 : world) :
  0 < page_size -> guard_overhead <= PRS_MAX_STACK_SIZE -> platform_ok w0 ->
  prs_stack_create size available_size w0 = Done stack w1 -> stack <> 0 ->
  exists (base : Z) (commits : list mem_event),
    trace w1 =
      trace w0 ++ EvMap PRS_MAX_STACK_SIZE PRS_PAL_MEM_FLAG_NONE base :: commits /\
    usub stack PRS_MAX_STACK_SIZE = base /\
    (forall w : world,
       prs_stack_destroy stack w =
         Done tt (World (map_results w)
                        (trace w ++ [EvUnmap base PRS_MAX_STACK_SIZE])
                        (store w)) /\
       range_free base
         (outstanding (trace w ++ [EvUnmap base PRS_MAX_STACK_SIZE]))) /\
    (range_free base (outstanding (trace w0)) ->
     outstanding (trace w1 ++ [EvUnmap base PRS_MAX_STACK_SIZE]) =
       outstanding (trace w0)).
Proof.
  intros Hpage Hroom Hplat Hrun Hstack.
  pose proof (guard_overhead_nonneg Hpage) as Hov.
  apply create_inv in Hrun as [[Hnull _] | (base & rest & Hinv)];
    [contradiction | | assumption ..].
  cbv zeta in Hinv.
  destruct Hinv as (Hmap & Hbase & Hend & -> & Ha & Hfit & ->).
  set (a := prs_bitops_align_size size page_size) in *.
  exists base, (create_commits base a).
  assert (Hbottom : usub (base + PRS_MAX_STACK_SIZE) PRS_MAX_STACK_SIZE = base)
    by (unfold usub; rewrite wrap_small; lia).
  split; [reflexivity |]. split; [assumption |]. split.
  - intros w. split.
    + unfold prs_stack_destroy, prs_pal_mem_unmap. now rewrite Hbottom.
    + rewrite outstanding_app. cbn [outstanding_from fold_left].
      apply unmap_frees_range.
  - intros [Hres Hcom]. cbn [trace].
    rewrite <- app_assoc, outstanding_app.
    destruct (outstanding (trace w0)) as [res com].
    cbn [reserved committed] in *.
    assert (Hkeep_res :
      List.filter (fun b : Z * Z => negb (fst b =? base)) res = res).
    { apply filter_keeps_all. eapply Forall_impl; [exact Hres |].
      intros b Hb. cbv beta in *. now apply negb_true_iff, Z.eqb_neq. }
    assert (Hkeep_com :
      List.filter
        (fun c : Z * Z * mem_flags =>
           negb (within base PRS_MAX_STACK_SIZE (fst (fst c)) (snd (fst c)))) com
      = com).
    { apply filter_keeps_all. eapply Forall_impl; [exact Hcom |].
      intros c Hc. cbv beta in *. now apply negb_true_iff. }
    unfold outstanding_from, create_commits, guard_overhead in *.
    destruct PRS_PAL_OS; cbn [PRS_STACK_EXTRA_PAGES] in *;
      cbn [app fold_left apply_event reserved committed];
      rewrite eqb_false by lia;
      cbn [reserved committed];
      rewrite !List.filter_app, Hkeep_res, Hkeep_com;
      cbn [List.filter fst snd];
      rewrite Z.eqb_refl; cbn [negb];
      rewrite !within_true by lia; cbn [negb];
      now rewrite !app_nil_r.
Qed.

(** ** The paths that do not meet the specification *)

(** The ceiling check of [prs_stack_create] comes before the reservation: a
    request it rejects leaves the world as it was. *)
Lemma create_above_ceiling_no_effects (size available_size : Z) (w : world) :
  0 < size ->
  PRS_MAX_STACK_SIZE < prs_bitops_align_size size page_size ->
  prs_stack_create size available_size w = Done 0 w.
Proof.
  intros Hsize Hceil. unfold prs_stack_create. run.
  rewrite gtb_true by lia. now rewrite gtb_true by lia.
Qed.

(** The check against the guard and extra pages comes after the reservation
    and returns without unmapping it: a request within the ceiling that does
    not leave room for those pages fails with the reservation still held. *)
Lemma windows_create_overhead_keeps_reservation
    (size available_size base : Z) (rest : list Z) (w : world) :
  PRS_PAL_OS = PRS_PAL_OS_WINDOWS ->
  0 < page_size ->
  guard_overhead <= PRS_MAX_STACK_SIZE -> PRS_MAX_STACK_SIZE < 2 ^ wbits ->
  0 < size ->
  round_up size page_size <= PRS_MAX_STACK_SIZE ->
  PRS_MAX_STACK_SIZE < round_up size page_size + guard_overhead ->
  map_results w = base :: rest -> base <> 0 ->
  prs_stack_create size available_size w =
    Done 0 (World rest
              (trace w ++ [EvMap PRS_MAX_STACK_SIZE PRS_PAL_MEM_FLAG_NONE base])
              (store w)).
Proof.
  intros Hos Hpage Hroom Hfit Hsize Hceil Hover Hmap Hbase.
  pose proof (round_up_bounds size page_size Hpage) as Hb.
  set (a := round_up size page_size) in *.
  assert (Ha : prs_bitops_align_size size page_size = a)
    by (apply align_size_exact; unfold align_defined; fold a; lia).
  assert (Haa : prs_bitops_align_size a page_size = a).
  { unfold prs_bitops_align_size.
    rewrite round_up_multiple by (trivial; apply round_up_divide).
    apply wrap_small. lia. }
  unfold prs_stack_create. run.
  rewrite gtb_true by lia. rewrite Ha, Haa.
  rewrite gtb_false by lia. rewrite Z.eqb_refl, Hmap.
  rewrite eqb_false by assumption.
  unfold usub, uadd, umul. unfold guard_overhead in *.
  destruct PRS_PAL_OS; [| discriminate]. cbn [PRS_STACK_EXTRA_PAGES] in *.
  rewrite (wrap_small (page_size * (1 + 3))) by lia.
  rewrite (wrap_small (PRS_MAX_STACK_SIZE - page_size * (1 + 3))) by lia.
  rewrite gtb_true by lia. reflexivity.
Qed.

(** With the alternate handler stack, [grow_size] is computed by the same
    expression as [aligned_new_size]: the commit of a successful
    [prs_stack_grow] has the length of the whole new size. *)
Lemma linux_grow_commits_whole_size (stack old_size failed_ptr : Z) :
  PRS_PAL_OS = PRS_PAL_OS_LINUX ->
  grow_commits stack old_size failed_ptr =
    [EvCommit
       (uadd (usub stack PRS_MAX_STACK_SIZE)
             (usub PRS_MAX_STACK_SIZE (aligned_new_size stack old_size failed_ptr)))
       (aligned_new_size stack old_size failed_ptr) RW].
Proof.
  intros Hos. unfold grow_commits, grow_size, aligned_new_size.
  rewrite Hos. reflexivity.
Qed.

(** With the guard page, [grow_size] is the increment. *)
Lemma windows_grow_size_is_increment (stack old_size failed_ptr : Z) :
  PRS_PAL_OS = PRS_PAL_OS_WINDOWS ->
  0 < page_size -> 0 <= old_size ->
  old_size + guard_overhead < 2 ^ wbits ->
  grow_size stack old_size failed_ptr =
    aligned_new_size stack old_size failed_ptr - old_size.
Proof.
  intros Hos Hpage Hold Hfit.
  pose proof (guard_overhead_nonneg Hpage) as Hov.
  rewrite windows_new_size by auto.
  rewrite windows_grow_size by (auto; lia). lia.
Qed.

(** ** Further properties of [prs_stack_address_in_range] *)

(** X13.  A stack value below the ceiling, the null pointer included, makes the
    subtraction of line 203 wrap around: the start is then not below the
    end, and no address is in range. *)
Theorem address_in_range_false_below_ceiling (stack address : Z) :
  0 <= stack < PRS_MAX_STACK_SIZE -> PRS_MAX_STACK_SIZE <= 2 ^ wbits ->
  prs_stack_address_in_range stack address = false.
Proof.
  intros Hstack Hfit.
  apply not_true_is_false. rewrite address_in_range_true.
  assert (Hstart : usub stack PRS_MAX_STACK_SIZE =
                   stack - PRS_MAX_STACK_SIZE + 2 ^ wbits).
  { unfold usub, wrap.
    rewrite <- (Z.mod_add (stack - PRS_MAX_STACK_SIZE) 1 (2 ^ wbits)) by lia.
    rewrite Z.mul_1_l. apply Z.mod_small. lia. }
  lia.
Qed.

(** X14.  Two stacks whose reservations do not overlap never claim the same
    address. *)
Theorem address_in_range_single_owner (stack1 stack2 address : Z) :
  0 <= PRS_MAX_STACK_SIZE ->
  PRS_MAX_STACK_SIZE <= stack1 ->
  stack1 + PRS_MAX_STACK_SIZE <= stack2 < 2 ^ wbits ->
  prs_stack_address_in_range stack1 address = true ->
  prs_stack_address_in_range stack2 address = false.
Proof.
  intros H0 H1 H2 Hin.
  apply not_true_is_false. intros Hin2.
  apply address_in_range_true in Hin, Hin2.
  rewrite stack_bottom_exact in Hin2 by lia.
  lia.
Qed.

(** ** Further properties of [prs_stack_create] *)

Lemma create_done_positive (size available_size stack : Z) (w w' : world) :
  prs_stack_create size available_size w = Done stack w' -> 0 < size.
Proof.
  unfold prs_stack_create, bind, PRS_PRECONDITION. intros Hrun.
  destruct (size >? 0) eqn:Hpos; [| discriminate].
  rewrite Z.gtb_ltb in Hpos. now apply Z.ltb_lt.
Qed.

Lemma wrap_divide (p z : Z) :
  0 < 2 ^ wbits -> (p | 2 ^ wbits) -> (p | z) -> (p | wrap z).
Proof.
  intros Hpos Hword Hz. unfold wrap.
  rewrite Z.mod_eq by lia.
  apply Z.divide_sub_r; [assumption |].
  now apply Z.divide_mul_l.
Qed.

(** X4.  The precondition of line 85 and the assertion of line 94: with a
    page size that divides the size of the address space the aligned size is
    aligned, so [prs_stack_create] terminates the program exactly for a
    request that is not positive, and returns for every other one. *)
Theorem create_returns_iff_positive_size (size available_size : Z) (w : world) :
  0 < page_size -> 0 < 2 ^ wbits -> (page_size | 2 ^ wbits) ->
  (exists (stack : Z) (w' : world),
     prs_stack_create size available_size w = Done stack w') <->
  0 < size.
Proof.
  intros Hpage Hpos Hword. split.
  - intros (stack & w' & Hrun). eapply create_done_positive; eassumption.
  - intros Hsize.
    set (a := prs_bitops_align_size size page_size).
    assert (Haa : prs_bitops_align_size a page_size = a).
    { unfold prs_bitops_align_size.
      rewrite (round_up_multiple a page_size Hpage).
      - apply wrap_small. apply wrap_range. assumption.
      - apply wrap_divide; auto. apply round_up_divide. }
    unfold prs_stack_create. run. fold a.
    rewrite gtb_true by lia. rewrite Haa, Z.eqb_refl.
    destruct (a >? PRS_MAX_STACK_SIZE); [eauto |].
    destruct (map_results w); cbn [map_results trace store].
    + rewrite Z.eqb_refl. eauto.
    + destruct (_ =? 0); [eauto |].
      destruct PRS_PAL_OS; [destruct (a >? _) |]; eauto.
Qed.

(** X1.  [prs_stack_create] returns a stack exactly when the aligned size leaves
    room for the guard and extra pages under the ceiling and the platform
    hands out a reservation. *)
Theorem create_nonnull_iff_room_and_reservation
    (size available_size stack : Z) (w w' : world) :
  0 < page_size -> guard_overhead <= PRS_MAX_STACK_SIZE -> platform_ok w ->
  align_defined size ->
  prs_stack_create size available_size w = Done stack w' ->
  stack <> 0 <->
  round_up size page_size + guard_overhead <= PRS_MAX_STACK_SIZE /\
  exists (base : Z) (rest : list Z), map_results w = base :: rest /\ base <> 0.
Proof.
  intros Hpage Hroom Hplat Hdef Hrun.
  pose proof (create_done_positive _ _ _ _ _ Hrun) as Hsize.
  pose proof (round_up_bounds size page_size Hpage) as Hb.
  assert (Ha : prs_bitops_align_size size page_size = round_up size page_size)
    by (apply align_size_exact; [lia | assumption]).
  split.
  - intros Hstack.
    apply create_inv in Hrun as [[Hnull _] | (base & rest & Hinv)];
      [contradiction | | assumption ..].
    cbv zeta in Hinv. rewrite Ha in Hinv.
    destruct Hinv as (Hmap & Hbase & _ & _ & _ & Hfit & _).
    split; [assumption |]. exists base, rest. split; [assumption | lia].
  - intros (Hfit & base & rest & Hmap & Hbase).
    assert (Hres : 0 < base /\ base + PRS_MAX_STACK_SIZE < 2 ^ wbits).
    { unfold platform_ok in Hplat. rewrite Hmap in Hplat.
      apply Forall_inv in Hplat. destruct Hplat as [? | ?]; [contradiction | assumption]. }
    destruct Hres as [Hpos Hend].
    rewrite (create_success_world size available_size base rest w) in Hrun
      by assumption.
    inversion Hrun. pose proof (guard_overhead_nonneg Hpage). lia.
Qed.

(** X2.  A reservation the platform refuses: [prs_stack_create] returns null after
    that one call, issues no commit, writes nothing, and the platform holds
    what it held. *)
Theorem create_reservation_failure (size available_size : Z) (w : world) :
  0 < page_size -> 0 < size ->
  round_up size page_size <= PRS_MAX_STACK_SIZE -> PRS_MAX_STACK_SIZE < 2 ^ wbits ->
  hd 0 (map_results w) = 0 ->
  prs_stack_create size available_size w =
    Done 0 (World (tl (map_results w))
              (trace w ++ [EvMap PRS_MAX_STACK_SIZE PRS_PAL_MEM_FLAG_NONE 0])
              (store w)) /\
  outstanding (trace w ++ [EvMap PRS_MAX_STACK_SIZE PRS_PAL_MEM_FLAG_NONE 0]) =
    outstanding (trace w).
Proof.
  intros Hpage Hsize Hceil Hfit Hfail.
  pose proof (round_up_bounds size page_size Hpage) as Hb.
  set (a := round_up size page_size) in *.
  assert (Ha : prs_bitops_align_size size page_size = a)
    by (apply align_size_exact; unfold align_defined; fold a; lia).
  assert (Haa : prs_bitops_align_size a page_size = a).
  { unfold prs_bitops_align_size.
    rewrite round_up_multiple by (trivial; apply round_up_divide).
    apply wrap_small. lia. }
  split.
  - unfold prs_stack_create. run.
    rewrite gtb_true by lia. rewrite Ha, Haa.
    rewrite gtb_false by lia. rewrite Z.eqb_refl.
    destruct (map_results w) as [| base rest]; cbn [hd tl] in *.
    + reflexivity.
    + subst base. reflexivity.
  - rewrite outstanding_app. reflexivity.
Qed.



(** X5.  A stack that [prs_stack_create] returned is one of which
    [prs_stack_address_in_range] tells the reservation, and the committed
    bytes are in range. *)
Theorem created_stack_address_in_range
    (size available_size stack address : Z) (w w' : world) :
  0 < page_size -> guard_overhead <= PRS_MAX_STACK_SIZE -> platform_ok w ->
  prs_stack_create size available_size w = Done stack w' -> stack <> 0 ->
  is_stack stack /\
  (prs_stack_address_in_range stack address = true <->
     stack - PRS_MAX_STACK_SIZE <= address < stack) /\
  exists aligned : Z,
    store w' !! available_size = Some aligned /\
    (stack - aligned <= address < stack ->
     prs_stack_address_in_range stack address = true).
Proof.
  intros Hpage Hroom Hplat Hrun Hstack.
  pose proof (guard_overhead_nonneg Hpage) as Hov.
  apply create_inv in Hrun as [[Hnull _] | (base & rest & Hinv)];
    [contradiction | | assumption ..].
  cbv zeta in Hinv.
  destruct Hinv as (_ & Hbase & Hend & -> & Ha & Hfit & ->).
  assert (Hiff : forall a,
            prs_stack_address_in_range (base + PRS_MAX_STACK_SIZE) a = true <->
            base + PRS_MAX_STACK_SIZE - PRS_MAX_STACK_SIZE <= a
              < base + PRS_MAX_STACK_SIZE).
  { intros a. rewrite address_in_range_true, stack_bottom_exact by lia.
    reflexivity. }
  split; [unfold is_stack; lia |].
  split; [apply Hiff |].
  eexists. cbn [store]. split; [apply lookup_insert_eq |].
  intros Hin. apply Hiff. lia.
Qed.

(** ** Further properties of [prs_stack_grow] *)

Lemma new_size_range (stack old_size failed_ptr : Z) :
  0 < 2 ^ wbits ->
  0 <= aligned_new_size stack old_size failed_ptr < 2 ^ wbits.
Proof.
  intros Hpos. unfold aligned_new_size, uadd, prs_bitops_align_size.
  destruct PRS_PAL_OS; now apply wrap_range.
Qed.

Lemma windows_room (stack old_size failed_ptr : Z) :
  PRS_PAL_OS = PRS_PAL_OS_WINDOWS ->
  0 <= guard_overhead <= PRS_MAX_STACK_SIZE -> PRS_MAX_STACK_SIZE < 2 ^ wbits ->
  usub PRS_MAX_STACK_SIZE (grow_size stack old_size failed_ptr) =
    PRS_MAX_STACK_SIZE - guard_overhead.
Proof.
  intros Hos Hov Hfit.
  rewrite windows_grow_size by (auto; lia).
  unfold usub. apply wrap_small. lia.
Qed.

(** X6.  The whole of [prs_stack_grow] for a call that meets the precondition
    and the assertion: [PRS_TRUE], the commits and the new size when the
    computed size leaves room for the guard and extra pages under the
    ceiling, and [PRS_FALSE] in the unchanged world otherwise. *)
Theorem grow_result_by_room
    (stack old_size failed_ptr new_size : Z) (w : world) :
  0 < page_size ->
  guard_overhead <= PRS_MAX_STACK_SIZE -> PRS_MAX_STACK_SIZE < 2 ^ wbits ->
  stack <> 0 ->
  (PRS_PAL_OS = PRS_PAL_OS_LINUX -> old_size < usub stack failed_ptr) ->
  prs_stack_grow stack old_size failed_ptr new_size w =
    if aligned_new_size stack old_size failed_ptr + guard_overhead
         <=? PRS_MAX_STACK_SIZE
    then Done true
           (World (map_results w)
              (trace w ++ grow_commits stack old_size failed_ptr)
              (<[new_size := aligned_new_size stack old_size failed_ptr]> (store w)))
    else Done false w.
Proof.
  intros Hpage Hroom Hfit Hnull Hassert.
  pose proof (guard_overhead_nonneg Hpage) as Hov.
  destruct (_ <=? PRS_MAX_STACK_SIZE) eqn:Hfits.
  - apply Z.leb_le in Hfits.
    apply grow_succeeds; try assumption; [lia |].
    intros Hos. rewrite windows_room by (auto; lia). lia.
  - apply Z.leb_gt in Hfits.
    unfold prs_stack_grow, grow_assertion. run.
    rewrite eqb_false by assumption. cbn [negb].
    destruct PRS_PAL_OS eqn:Hos.
    + destruct (_ >? PRS_MAX_STACK_SIZE); [reflexivity |].
      rewrite <- Hos. rewrite windows_room by (auto; lia).
      rewrite gtb_true by lia. reflexivity.
    + rewrite (gtb_true _ _ (Hassert eq_refl)).
      unfold guard_overhead in Hfits. rewrite Hos in Hfits.
      rewrite gtb_true by lia. reflexivity.
Qed.

(** The commits of a call that passed the checks lie in the reservation
    of the stack: with the alternate handler stack whatever [old_size] and
    [failed_ptr] are, with the guard page when adding the increment to
    [old_size] does not wrap around. *)
Lemma grow_commits_inside (stack old_size failed_ptr : Z) :
  0 < page_size -> guard_overhead <= PRS_MAX_STACK_SIZE -> is_stack stack ->
  (PRS_PAL_OS = PRS_PAL_OS_WINDOWS ->
     0 <= old_size /\ old_size + guard_overhead < 2 ^ wbits) ->
  aligned_new_size stack old_size failed_ptr <= PRS_MAX_STACK_SIZE ->
  (PRS_PAL_OS = PRS_PAL_OS_WINDOWS ->
     aligned_new_size stack old_size failed_ptr <=
       usub PRS_MAX_STACK_SIZE (grow_size stack old_size failed_ptr)) ->
  Forall (commit_within (stack - PRS_MAX_STACK_SIZE) stack)
         (grow_commits stack old_size failed_ptr).
Proof.
  intros Hpage Hroom [Hlow Hhigh] Hold Hceil Hguard.
  pose proof (guard_overhead_nonneg Hpage) as Hov.
  pose proof (new_size_range stack old_size failed_ptr ltac:(lia)) as Hnew.
  unfold grow_commits.
  destruct PRS_PAL_OS eqn:Hos.
  - specialize (Hguard eq_refl). destruct (Hold eq_refl) as [Hold0 Hfit].
    rewrite <- Hos in *.
    rewrite windows_room in Hguard by (auto; lia).
    rewrite windows_new_size in * by auto.
    rewrite windows_grow_size by (auto; lia).
    assert (Hlimit :
      uadd (usub stack PRS_MAX_STACK_SIZE)
           (usub PRS_MAX_STACK_SIZE (old_size + guard_overhead))
      = stack - old_size - guard_overhead).
    { unfold uadd, usub.
      rewrite (wrap_small (stack - _)), (wrap_small (PRS_MAX_STACK_SIZE - _)) by lia.
      rewrite wrap_small; lia. }
    cbv zeta. rewrite Hlimit.
    unfold guard_overhead in *. rewrite Hos in *. cbn [PRS_STACK_EXTRA_PAGES] in *.
    unfold usub, umul. rewrite !wrap_small by lia.
    repeat (constructor; [cbn [commit_within]; lia |]). constructor.
  - set (new := aligned_new_size stack old_size failed_ptr) in *.
    assert (Hlimit :
      uadd (usub stack PRS_MAX_STACK_SIZE) (usub PRS_MAX_STACK_SIZE new)
      = stack - new).
    { unfold uadd, usub.
      rewrite (wrap_small (stack - _)), (wrap_small (_ - new)) by lia.
      rewrite wrap_small; lia. }
    assert (Hsame : grow_size stack old_size failed_ptr = new)
      by (unfold grow_size, new, aligned_new_size; now rewrite Hos).
    cbv zeta. rewrite Hlimit, Hsame.
    repeat (constructor; [cbn [commit_within]; lia |]). constructor.
Qed.

(** X7.  [prs_stack_grow] neither reserves nor unmaps, and commits nothing
    outside the reservation of the stack: with the alternate handler stack
    whatever [old_size] and [failed_ptr] are, with the guard page when
    adding the increment to [old_size] does not wrap around. *)
Theorem grow_stays_inside_reservation
    (stack old_size failed_ptr new_size : Z) (r : bool) (w w' : world) :
  0 < page_size -> guard_overhead <= PRS_MAX_STACK_SIZE -> is_stack stack ->
  (PRS_PAL_OS = PRS_PAL_OS_WINDOWS ->
     0 <= old_size /\ old_size + guard_overhead < 2 ^ wbits) ->
  prs_stack_grow stack old_size failed_ptr new_size w = Done r w' ->
  map_results w' = map_results w /\
  exists commits : list mem_event,
    trace w' = trace w ++ commits /\
    Forall (commit_within (stack - PRS_MAX_STACK_SIZE) stack) commits.
Proof.
  intros Hpage Hroom Hstack Hold Hrun. destruct r.
  - apply grow_true_inv in Hrun as (_ & _ & Hceil & Hguard & ->).
    cbn [map_results trace]. split; [reflexivity |].
    eexists. split; [reflexivity |]. now apply grow_commits_inside.
  - apply grow_false_inv in Hrun as ->. split; [reflexivity |].
    exists []. split; [now rewrite app_nil_r | constructor].
Qed.

(** X8.  After [PRS_TRUE] the committed bytes reach the fault: with the alternate
    handler stack for every fault below the stack, and the fault is in the
    lowest committed page; with the guard page for a fault in the guard or
    extra pages of the old layout. *)
Theorem grow_covers_fault
    (stack old_size failed_ptr new_size : Z) (w w' : world) :
  0 < page_size -> 0 <= old_size ->
  (PRS_PAL_OS = PRS_PAL_OS_WINDOWS ->
     old_size + guard_overhead < 2 ^ wbits /\
     stack - old_size - guard_overhead <= failed_ptr) ->
  (PRS_PAL_OS = PRS_PAL_OS_LINUX ->
     failed_ptr <= stack /\ align_defined (stack - failed_ptr)) ->
  prs_stack_grow stack old_size failed_ptr new_size w = Done true w' ->
  exists size : Z,
    store w' !! new_size = Some size /\
    stack - size <= failed_ptr /\
    (PRS_PAL_OS = PRS_PAL_OS_LINUX ->
       failed_ptr < stack /\ failed_ptr < stack - size + page_size).
Proof.
  intros Hpage Hold Hwin Hlin Hrun.
  pose proof (guard_overhead_nonneg Hpage) as Hov.
  apply grow_true_inv in Hrun as (_ & Hassert & _ & _ & ->).
  eexists. cbn [store]. split; [apply lookup_insert_eq |].
  destruct PRS_PAL_OS eqn:Hos.
  - destruct (Hwin eq_refl) as [Hfit Hnear].
    rewrite <- Hos. rewrite windows_new_size by (auto; lia).
    split; [lia | intros Hlinux; congruence].
  - destruct (Hlin eq_refl) as [Hptr Hdef]. specialize (Hassert eq_refl).
    pose proof (round_up_bounds (stack - failed_ptr) page_size Hpage) as Hb.
    assert (Hreq : usub stack failed_ptr = stack - failed_ptr)
      by (unfold usub; apply wrap_small; unfold align_defined in Hdef; lia).
    rewrite <- Hos. rewrite linux_new_size; rewrite ?Hreq; auto; lia.
Qed.

Lemma linux_assertion_fails
    (stack old_size failed_ptr new_size : Z) (w : world) :
  PRS_PAL_OS = PRS_PAL_OS_LINUX ->
  usub stack failed_ptr <= old_size ->
  prs_stack_grow stack old_size failed_ptr new_size w = Fatal.
Proof.
  intros Hos Hreq. unfold prs_stack_grow, grow_assertion. run. rewrite Hos.
  destruct (negb (stack =? 0)); [| reflexivity].
  now rewrite gtb_false.
Qed.

(** X11.  With the alternate handler stack, a fault that is not below the
    committed bytes terminates the program at the assertion of line 162;
    the committed size and the platform are not consulted. *)
Theorem linux_grow_fault_in_committed_region_is_fatal
    (stack old_size failed_ptr new_size : Z) (w : world) :
  PRS_PAL_OS = PRS_PAL_OS_LINUX ->
  old_size < 2 ^ wbits ->
  stack - old_size <= failed_ptr <= stack ->
  prs_stack_grow stack old_size failed_ptr new_size w = Fatal.
Proof.
  intros Hos Hold Hin. apply linux_assertion_fails; [assumption |].
  unfold usub. rewrite wrap_small by lia. lia.
Qed.

(** X12.  With the alternate handler stack, a second call for the fault a first
    call has grown the stack for, with the size that call wrote, terminates
    the program. *)
Theorem linux_regrow_same_fault_is_fatal
    (stack old_size failed_ptr new_size size : Z) (w w' : world) :
  PRS_PAL_OS = PRS_PAL_OS_LINUX ->
  0 < page_size -> 0 <= old_size ->
  failed_ptr <= stack -> align_defined (stack - failed_ptr) ->
  prs_stack_grow stack old_size failed_ptr new_size w = Done true w' ->
  store w' !! new_size = Some size ->
  prs_stack_grow stack size failed_ptr new_size w' = Fatal.
Proof.
  intros Hos Hpage Hold Hptr Hdef Hrun Hsize.
  apply grow_true_inv in Hrun as (_ & Hassert & _ & _ & ->).
  specialize (Hassert Hos).
  pose proof (round_up_bounds (stack - failed_ptr) page_size Hpage) as Hb.
  assert (Hreq : usub stack failed_ptr = stack - failed_ptr)
    by (unfold usub; apply wrap_small; unfold align_defined in Hdef; lia).
  cbn [store] in Hsize. rewrite lookup_insert_eq in Hsize.
  rewrite linux_new_size in Hsize by (rewrite ?Hreq; auto; lia).
  inversion Hsize; subst size.
  apply linux_assertion_fails; [assumption |]. rewrite Hreq. lia.
Qed.


Lemma round_up_next (k r p : Z) :
  0 < p -> (p | k) -> k < r <= k + p -> round_up r p = k + p.
Proof.
  intros Hp Hk Hr.
  pose proof (round_up_bounds r p Hp) as Hb.
  apply Z.le_antisymm.
  - apply round_up_least; [assumption | | lia].
    apply Z.divide_add_r; [assumption | apply Z.divide_refl].
  - destruct Hk as [a ->]. destruct (round_up_divide r p) as [q Hq].
    rewrite Hq in *.
    assert (a < q) by (apply (Z.mul_lt_mono_pos_r p); lia).
    assert ((a + 1) * p <= q * p) by (apply Z.mul_le_mono_nonneg_r; lia).
    lia.
Qed.

(** X10.  With the alternate handler stack, a fault in the page just below the
    committed bytes grows the stack by exactly one page, when the ceiling
    allows it. *)
Theorem linux_grow_page_below_adds_one_page
    (stack old_size failed_ptr new_size : Z) (w : world) :
  PRS_PAL_OS = PRS_PAL_OS_LINUX ->
  0 < page_size -> committed_size_ok old_size ->
  stack <> 0 -> PRS_MAX_STACK_SIZE < 2 ^ wbits ->
  stack - old_size - page_size <= failed_ptr < stack - old_size ->
  old_size + page_size <= PRS_MAX_STACK_SIZE ->
  exists w' : world,
    prs_stack_grow stack old_size failed_ptr new_size w = Done true w' /\
    store w' !! new_size = Some (old_size + page_size).
Proof.
  intros Hos Hpage [Hold Hdiv] Hnull Hfit Hin Hceil.
  assert (Hreq : usub stack failed_ptr = stack - failed_ptr)
    by (unfold usub; apply wrap_small; lia).
  assert (Hup : round_up (stack - failed_ptr) page_size = old_size + page_size)
    by (apply round_up_next; auto; lia).
  assert (Hnew : aligned_new_size stack old_size failed_ptr = old_size + page_size).
  { rewrite linux_new_size; rewrite ?Hreq; auto; try lia.
    unfold align_defined. lia. }
  eexists. split.
  - apply grow_succeeds; try assumption.
    + intros _. lia.
    + lia.
    + intros Hwin. congruence.
  - cbn [store]. rewrite lookup_insert_eq. now rewrite Hnew.
Qed.

(** ** A stack from creation to destruction *)

Lemma create_commits_inside (base aligned : Z) :
  0 < page_size -> 0 <= aligned ->
  aligned + guard_overhead <= PRS_MAX_STACK_SIZE ->
  Forall (commit_within base (base + PRS_MAX_STACK_SIZE))
         (create_commits base aligned).
Proof.
  intros Hpage Ha Hfit. unfold create_commits, guard_overhead in *.
  destruct PRS_PAL_OS; cbn [PRS_STACK_EXTRA_PAGES] in *;
    repeat (constructor; [cbn [commit_within]; lia |]); constructor.
Qed.

Lemma grow_chain_commits_inside (stack new_size : Z) (faults : list Z) :
  0 < page_size -> guard_overhead <= PRS_MAX_STACK_SIZE ->
  PRS_MAX_STACK_SIZE + guard_overhead < 2 ^ wbits -> is_stack stack ->
  forall (old_size : Z) (w : world) (sizes : list Z) (w' : world),
    (PRS_PAL_OS = PRS_PAL_OS_WINDOWS -> 0 <= old_size <= PRS_MAX_STACK_SIZE) ->
    grow_chain stack old_size new_size faults w = Some (sizes, w') ->
    exists commits : list mem_event,
      trace w' = trace w ++ commits /\
      Forall (commit_within (stack - PRS_MAX_STACK_SIZE) stack) commits.
Proof.
  intros Hpage Hroom Hfit Hstack.
  pose proof (guard_overhead_nonneg Hpage) as Hov.
  induction faults as [| failed_ptr faults IH];
    intros old_size w sizes w' Hold Hrun; cbn [grow_chain] in Hrun.
  - inversion Hrun; subst. exists []. split; [now rewrite app_nil_r | constructor].
  - destruct (prs_stack_grow stack old_size failed_ptr new_size w)
      as [[|] w1 |] eqn:Hgrow; try discriminate.
    apply grow_true_inv in Hgrow as (_ & _ & Hceil & Hguard & ->).
    cbn [store] in Hrun. rewrite lookup_insert_eq in Hrun.
    destruct (grow_chain _ _ _ _ _) as [[sizes1 w2] |] eqn:Hrest; [| discriminate].
    inversion Hrun; subst sizes w'; clear Hrun.
    apply IH in Hrest as (commits & Htrace & Hinside).
    + cbn [trace] in Htrace. eexists. split.
      * rewrite Htrace, <- app_assoc. reflexivity.
      * apply Forall_app. split; [| assumption].
        apply grow_commits_inside; auto.
        intros Hos. specialize (Hold Hos). lia.
    + intros _. split; [| assumption].
      apply new_size_range. destruct Hstack. lia.
Qed.

Lemma commits_accumulate (low high : Z) (commits : list mem_event) :
  Forall (commit_within low high) commits ->
  forall r : resources,
    exists extra : list (Z * Z * mem_flags),
      outstanding_from r commits =
        Resources (reserved r) (committed r ++ extra) /\
      Forall (fun c => low <= fst (fst c) /\ fst (fst c) + snd (fst c) <= high)
             extra.
Proof.
  induction 1 as [| e commits He _ IH]; intros r.
  - exists []. rewrite app_nil_r. destruct r. split; [reflexivity | constructor].
  - destruct e as [| addr size flags |]; cbn [commit_within] in He; try contradiction.
    destruct (IH (apply_event r (EvCommit addr size flags))) as (extra & Heq & Hin).
    exists ((addr, size, flags) :: extra). split.
    + unfold outstanding_from in *. cbn [fold_left]. rewrite Heq.
      cbn [apply_event reserved committed]. now rewrite <- app_assoc.
    + constructor; [cbn [fst snd]; lia | assumption].
Qed.

Lemma filter_drops_all {A : Type} (f : A -> bool) (l : list A) :
  Forall (fun x => f x = false) l -> List.filter f l = [].
Proof.
  induction 1 as [| x l Hx _ IH]; cbn [List.filter]; [reflexivity |].
  now rewrite Hx.
Qed.

(** X15.  Creation, any number of successful growths, destruction: one unmapping
    releases the reservation and every commit the stack ever received, and
    the platform holds what it held before the stack was created. *)
Theorem create_grow_destroy_releases_everything
    (size available_size stack old_size new_size : Z)
    (faults sizes : list Z) (w0 w1 w2 : world) :
  0 < page_size -> guard_overhead <= PRS_MAX_STACK_SIZE ->
  PRS_MAX_STACK_SIZE + guard_overhead < 2 ^ wbits -> platform_ok w0 ->
  prs_stack_create size available_size w0 = Done stack w1 -> stack <> 0 ->
  store w1 !! available_size = Some old_size ->
  grow_chain stack old_size new_size faults w1 = Some (sizes, w2) ->
  range_free (stack - PRS_MAX_STACK_SIZE) (outstanding (trace w0)) ->
  exists w3 : world,
    prs_stack_destroy stack w2 = Done tt w3 /\
    store w3 = store w2 /\
    outstanding (trace w3) = outstanding (trace w0).
Proof.
  intros Hpage Hroom Hfit Hplat Hcreate Hstack Hold Hchain [Hres Hcom].
  pose proof (guard_overhead_nonneg Hpage) as Hov.
  apply create_inv in Hcreate as [[Hnull _] | (base & rest & Hinv)];
    [contradiction | | assumption ..].
  cbv zeta in Hinv.
  destruct Hinv as (_ & Hbase & Hend & -> & Ha & Hafit & ->).
  cbn [store] in Hold. rewrite lookup_insert_eq in Hold.
  inversion Hold; subst old_size; clear Hold.
  set (a := prs_bitops_align_size size page_size) in *.
  replace (base + PRS_MAX_STACK_SIZE - PRS_MAX_STACK_SIZE) with base in * by lia.
  apply grow_chain_commits_inside in Hchain as (grown & Htrace & Hinside);
    [| auto; unfold is_stack; lia ..].
  replace (base + PRS_MAX_STACK_SIZE - PRS_MAX_STACK_SIZE) with base in * by lia.
  cbn [trace] in Htrace.
  assert (Hbottom : usub (base + PRS_MAX_STACK_SIZE) PRS_MAX_STACK_SIZE = base)
    by (unfold usub; rewrite wrap_small; lia).
  eexists. split; [| split].
  - unfold prs_stack_destroy, prs_pal_mem_unmap. rewrite Hbottom. reflexivity.
  - reflexivity.
  - cbn [trace]. rewrite Htrace.
    rewrite <- !app_assoc, outstanding_app. cbn [app].
    destruct (outstanding (trace w0)) as [res com]. cbn [reserved committed] in *.
    unfold outstanding_from. cbn [fold_left apply_event reserved committed].
    rewrite eqb_false by lia.
    rewrite app_assoc, fold_left_app. cbn [fold_left].
    destruct (commits_accumulate base (base + PRS_MAX_STACK_SIZE)
                (create_commits base a ++ grown)
                ltac:(apply Forall_app; split;
                      [apply create_commits_inside; assumption | assumption])
                (Resources (res ++ [(base, PRS_MAX_STACK_SIZE)]) com))
      as (extra & Heq & Hextra).
    unfold outstanding_from in Heq. rewrite Heq.
    cbn [apply_event reserved committed].
    rewrite !List.filter_app. cbn [List.filter fst].
    rewrite Z.eqb_refl. cbn [negb].
    rewrite (filter_keeps_all _ res), (filter_keeps_all _ com), (filter_drops_all _ extra).
    + now rewrite !app_nil_r.
    + eapply Forall_impl; [exact Hextra |].
      intros c Hc. cbv beta in *. apply negb_false_iff, within_true; lia.
    + eapply Forall_impl; [exact Hcom |].
      intros c Hc. cbv beta in *. now apply negb_true_iff.
    + eapply Forall_impl; [exact Hres |].
      intros b Hb. cbv beta in *. now apply negb_true_iff, Z.eqb_neq.
Qed.

End StackAllocator.

(** ** Concrete runs

    A 64-bit platform with pages of 4096 bytes and a ceiling of 1 MiB; in
    [fresh_world] the operating system hands out the reservation at 65536,
    so that a stack created there is 1114112. *)

(** C4.  On the platform with the guard page, a request of the whole ceiling
    passes the first check, is reserved, and fails the check against the
    guard and extra pages: [prs_stack_create] returns null and the
    reservation it made is still held, with no unmapping in the trace. *)
Theorem windows_create_failure_keeps_reservation :
  prs_stack_create 64 4096 1048576 PRS_PAL_OS_WINDOWS 1048576 100 fresh_world =
    Done 0 (World [] [EvMap 1048576 PRS_PAL_MEM_FLAG_NONE 65536] ∅) /\
  outstanding [EvMap 1048576 PRS_PAL_MEM_FLAG_NONE 65536] =
    Resources [(65536, 1048576)] [] /\
  outstanding (trace fresh_world) = Resources [] [].
Proof. vm_compute. repeat split; reflexivity. Qed.

(** C7.  With the alternate handler stack, growing a stack of one committed
    page for a fault one byte below it writes the new size 8192 and commits
    8192 bytes from [stack - 8192]: the whole new region, the page committed
    at creation included, and not the 4096 new bytes alone. *)
Theorem linux_grow_recommits_committed_pages :
  exists w1 : world,
    prs_stack_create 64 4096 1048576 PRS_PAL_OS_LINUX 1 100 fresh_world = Done 1114112 w1 /\
    trace w1 = [EvMap 1048576 PRS_PAL_MEM_FLAG_NONE 65536;
                EvCommit (1114112 - 4096) 4096 RW] /\
    store w1 !! 100 = Some 4096 /\
    exists w2 : world,
      prs_stack_grow 64 4096 1048576 PRS_PAL_OS_LINUX 1114112 4096 (1114112 - 4097) 200 w1 = Done true w2 /\
      store w2 !! 200 = Some 8192 /\
      trace w2 = trace w1 ++ [EvCommit (1114112 - 8192) 8192 RW] /\
      within (1114112 - 8192) 8192 (1114112 - 4096) 4096 = true /\
      8192 <> 8192 - 4096.
Proof.
  eexists. split; [vm_compute; reflexivity |].
  split; [reflexivity |]. split; [reflexivity |].
  eexists. split; [vm_compute; reflexivity |].
  repeat split; try reflexivity. lia.
Qed.

(** ** The theorems at concrete inputs *)

Lemma create_returns_top_and_aligned_size_witness :
  exists w',
    prs_stack_create 64 4096 1048576 PRS_PAL_OS_WINDOWS 5000 100 fresh_world = Done (65536 + 1048576) w' /\
    65536 + 1048576 <> 0 /\
    store w' !! 100 = Some (round_up 5000 4096) /\
    (4096 | round_up 5000 4096) /\
    5000 <= round_up 5000 4096 < 5000 + 4096 /\
    (forall m, (4096 | m) -> 5000 <= m -> round_up 5000 4096 <= m) /\
    round_up 5000 4096 <= 1048576.
Proof.
  apply (create_returns_top_and_aligned_size 64 4096 1048576 PRS_PAL_OS_WINDOWS
           5000 100 65536 [] fresh_world).
  - lia.
  - lia.
  - vm_compute. discriminate.
  - reflexivity.
  - lia.
  - vm_compute. reflexivity.
Defined.

Lemma address_in_range_interval_witness :
  (prs_stack_address_in_range 64 1048576 1114112 1110015 = true <->
     1114112 - 1048576 <= 1110015 < 1114112) /\
  prs_stack_address_in_range 64 1048576 1114112 (1114112 - 1) = true /\
  prs_stack_address_in_range 64 1048576 1114112 (1114112 - 1048576) = true /\
  prs_stack_address_in_range 64 1048576 1114112 1114112 = false /\
  prs_stack_address_in_range 64 1048576 1114112
    (usub 64 (1114112 - 1048576) 1) = false.
Proof.
  apply (address_in_range_interval 64 1048576 1114112 1110015).
  - lia.
  - vm_compute. split; [discriminate | reflexivity].
Defined.

Lemma grow_new_size_policy_witness :
  store (World [] [EvCommit 1105920 8192 RW] (<[200 := 8192]> ∅)) !! 200 =
    Some (round_up (1114112 - 1110015) 4096) /\
  store (World []
           [EvCommit 1077248 12288 RW; EvCommit 1089536 4096 GRW;
            EvCommit 1093632 16384 RW]
           (<[200 := 20480]> ∅)) !! 200 =
    Some (4096 + (1 + PRS_STACK_EXTRA_PAGES PRS_PAL_OS_WINDOWS) * 4096).
Proof.
  split.
  - apply (grow_new_size_policy 64 4096 1048576 PRS_PAL_OS_LINUX
             1114112 4096 1110015 200 (World [] [] ∅)).
    + lia.
    + lia.
    + discriminate.
    + intros _. split; [lia | vm_compute; reflexivity].
    + vm_compute. reflexivity.
  - apply (grow_new_size_policy 64 4096 1048576 PRS_PAL_OS_WINDOWS
             1114112 4096 1110015 200 (World [] [] ∅)).
    + lia.
    + lia.
    + intros _. vm_compute. reflexivity.
    + discriminate.
    + vm_compute. reflexivity.
Defined.

Lemma grow_past_ceiling_fails_witness :
  prs_stack_grow 64 4096 1048576 PRS_PAL_OS_WINDOWS 1114112 1036288 1077000 200 fresh_world =
    Done false fresh_world.
Proof.
  apply (grow_past_ceiling_fails 64 4096 1048576 PRS_PAL_OS_WINDOWS
           1114112 1036288 1077000 200 fresh_world).
  - lia.
  - vm_compute. discriminate.
  - vm_compute. reflexivity.
  - discriminate.
  - discriminate.
  - vm_compute. reflexivity.
Defined.

Lemma grow_chain_strictly_increasing_witness :
  StronglySorted Z.lt [4096; 8192; 20480] /\
  Forall (committed_size_ok 4096 1048576) [8192; 20480] /\
  length [8192; 20480] = length [1110015; 1095000].
Proof.
  eapply (grow_chain_strictly_increasing 64 4096 1048576 PRS_PAL_OS_LINUX
            1114112 200 [1110015; 1095000]
            ltac:(lia) ltac:(vm_compute; reflexivity)).
  - repeat constructor.
  - split; [lia | exists 1; reflexivity].
  - instantiate (2 := World [] [] ∅). vm_compute. reflexivity.
Defined.

Lemma destroy_unmaps_whole_reservation_witness :
  exists (base : Z) (commits : list mem_event),
    [EvMap 1048576 PRS_PAL_MEM_FLAG_NONE 65536;
     EvCommit 1110016 4096 RW] =
      [] ++ EvMap 1048576 PRS_PAL_MEM_FLAG_NONE base :: commits /\
    usub 64 1114112 1048576 = base /\
    (forall w : world,
       prs_stack_destroy 64 1048576 1114112 w =
         Done tt (World (map_results w) (trace w ++ [EvUnmap base 1048576]) (store w)) /\
       range_free 1048576 base (outstanding (trace w ++ [EvUnmap base 1048576]))) /\
    (range_free 1048576 base (outstanding []) ->
     outstanding
       ([EvMap 1048576 PRS_PAL_MEM_FLAG_NONE 65536; EvCommit 1110016 4096 RW]
          ++ [EvUnmap base 1048576]) = outstanding []).
Proof.
  apply (destroy_unmaps_whole_reservation 64 4096 1048576 PRS_PAL_OS_LINUX
           1 100 1114112 fresh_world
           (World [] [EvMap 1048576 PRS_PAL_MEM_FLAG_NONE 65536;
                      EvCommit 1110016 4096 RW] (<[100 := 4096]> ∅))).
  - lia.
  - vm_compute. discriminate.
  - constructor; [right; split; [lia | vm_compute; reflexivity] | constructor].
  - vm_compute. reflexivity.
  - discriminate.
Defined.

Lemma grow_assertion_holds_below_committed_witness :
  4096 < usub 64 1114112 1110015 /\
  grow_assertion 64 PRS_PAL_OS_LINUX 1114112 4096 1110015 fresh_world =
    Done tt fresh_world /\
  exists (r : bool) (w' : world),
    prs_stack_grow 64 4096 1048576 PRS_PAL_OS_LINUX 1114112 4096 1110015 200 fresh_world = Done r w'.
Proof.
  apply (grow_assertion_holds_below_committed 64 4096 1048576 PRS_PAL_OS_LINUX
           1114112 4096 1110015 200 fresh_world).
  - reflexivity.
  - lia.
  - vm_compute. split; reflexivity.
  - lia.
  - lia.
  - lia.
Defined.

Lemma failure_leaves_outputs_unwritten_witness :
  store (World [] [EvMap 1048576 PRS_PAL_MEM_FLAG_NONE 65536] ∅) = store fresh_world.
Proof.
  apply (failure_leaves_outputs_unwritten 64 4096 1048576 PRS_PAL_OS_WINDOWS
           1048576 100 1114112 4096 1110015 200 fresh_world
           (World [] [EvMap 1048576 PRS_PAL_MEM_FLAG_NONE 65536] ∅)).
  - lia.
  - constructor; [right; split; [lia | vm_compute; reflexivity] | constructor].
  - left. vm_compute. reflexivity.
Defined.

(** ** The further properties at concrete inputs *)

Lemma address_in_range_false_below_ceiling_witness :
  prs_stack_address_in_range 64 1048576 0 12345 = false.
Proof.
  apply (address_in_range_false_below_ceiling 64 1048576 0 12345).
  - lia.
  - vm_compute. discriminate.
Defined.

Lemma address_in_range_single_owner_witness :
  prs_stack_address_in_range 64 1048576 2162688 1110015 = false.
Proof.
  apply (address_in_range_single_owner 64 1048576 1114112 2162688 1110015).
  - lia.
  - lia.
  - split; [lia | vm_compute; reflexivity].
  - vm_compute. reflexivity.
Defined.

Lemma create_returns_iff_positive_size_witness :
  (exists (stack : Z) (w' : world),
     prs_stack_create 64 4096 1048576 PRS_PAL_OS_WINDOWS 1 100 fresh_world =
       Done stack w') <-> 0 < 1.
Proof.
  apply (create_returns_iff_positive_size 64 4096 1048576 PRS_PAL_OS_WINDOWS
           1 100 fresh_world).
  - lia.
  - vm_compute. reflexivity.
  - exists (2 ^ 52). vm_compute. reflexivity.
Defined.

Lemma create_nonnull_iff_room_and_reservation_witness :
  exists w1 : world,
    prs_stack_create 64 4096 1048576 PRS_PAL_OS_WINDOWS 1 100 fresh_world =
      Done 1114112 w1 /\
    (1114112 <> 0 <->
     round_up 1 4096 + guard_overhead 4096 PRS_PAL_OS_WINDOWS <= 1048576 /\
     exists (base : Z) (rest : list Z),
       map_results fresh_world = base :: rest /\ base <> 0).
Proof.
  eexists. split; [vm_compute; reflexivity |].
  eapply (create_nonnull_iff_room_and_reservation 64 4096 1048576
            PRS_PAL_OS_WINDOWS 1 100 1114112 fresh_world).
  - lia.
  - vm_compute. discriminate.
  - constructor; [right; split; [lia | vm_compute; reflexivity] | constructor].
  - vm_compute. reflexivity.
  - vm_compute. reflexivity.
Defined.

Lemma create_reservation_failure_witness :
  prs_stack_create 64 4096 1048576 PRS_PAL_OS_WINDOWS 1 100 (World [0] [] ∅) =
    Done 0 (World (tl [0]) ([] ++ [EvMap 1048576 PRS_PAL_MEM_FLAG_NONE 0]) ∅) /\
  outstanding ([] ++ [EvMap 1048576 PRS_PAL_MEM_FLAG_NONE 0]) = outstanding [].
Proof.
  apply (create_reservation_failure 64 4096 1048576 PRS_PAL_OS_WINDOWS
           1 100 (World [0] [] ∅)).
  - lia.
  - lia.
  - vm_compute. discriminate.
  - vm_compute. reflexivity.
  - reflexivity.
Defined.


Lemma created_stack_address_in_range_witness :
  exists w1 : world,
    prs_stack_create 64 4096 1048576 PRS_PAL_OS_LINUX 1 100 fresh_world =
      Done 1114112 w1 /\
    is_stack 64 1048576 1114112 /\
    (prs_stack_address_in_range 64 1048576 1114112 1110015 = true <->
       1114112 - 1048576 <= 1110015 < 1114112) /\
    exists aligned : Z,
      store w1 !! 100 = Some aligned /\
      (1114112 - aligned <= 1110015 < 1114112 ->
       prs_stack_address_in_range 64 1048576 1114112 1110015 = true).
Proof.
  eexists. split; [vm_compute; reflexivity |].
  eapply (created_stack_address_in_range 64 4096 1048576 PRS_PAL_OS_LINUX
            1 100 1114112 1110015 fresh_world).
  - lia.
  - vm_compute. discriminate.
  - constructor; [right; split; [lia | vm_compute; reflexivity] | constructor].
  - vm_compute. reflexivity.
  - discriminate.
Defined.

Lemma grow_result_by_room_witness :
  prs_stack_grow 64 4096 1048576 PRS_PAL_OS_WINDOWS 1114112 4096 1105000 200
    fresh_world =
  if aligned_new_size 64 4096 PRS_PAL_OS_WINDOWS 1114112 4096 1105000
       + guard_overhead 4096 PRS_PAL_OS_WINDOWS <=? 1048576
  then Done true
         (World (map_results fresh_world)
            (trace fresh_world ++
               grow_commits 64 4096 1048576 PRS_PAL_OS_WINDOWS 1114112 4096 1105000)
            (<[200 := aligned_new_size 64 4096 PRS_PAL_OS_WINDOWS 1114112 4096 1105000]>
               (store fresh_world)))
  else Done false fresh_world.
Proof.
  apply (grow_result_by_room 64 4096 1048576 PRS_PAL_OS_WINDOWS
           1114112 4096 1105000 200 fresh_world).
  - lia.
  - vm_compute. discriminate.
  - vm_compute. reflexivity.
  - discriminate.
  - discriminate.
Defined.

Lemma grow_stays_inside_reservation_witness :
  exists w' : world,
    prs_stack_grow 64 4096 1048576 PRS_PAL_OS_WINDOWS 1114112 4096 1105000 200
      fresh_world = Done true w' /\
    map_results w' = map_results fresh_world /\
    exists commits : list mem_event,
      trace w' = trace fresh_world ++ commits /\
      Forall (commit_within (1114112 - 1048576) 1114112) commits.
Proof.
  eexists. split; [vm_compute; reflexivity |].
  eapply (grow_stays_inside_reservation 64 4096 1048576 PRS_PAL_OS_WINDOWS
            1114112 4096 1105000 200 true fresh_world).
  - lia.
  - vm_compute. discriminate.
  - vm_compute. split; reflexivity.
  - intros _. split; [lia | vm_compute; reflexivity].
  - vm_compute. reflexivity.
Defined.

Lemma grow_covers_fault_witness :
  exists w' : world,
    prs_stack_grow 64 4096 1048576 PRS_PAL_OS_LINUX 1114112 4096 1100000 200
      fresh_world = Done true w' /\
    exists size : Z,
      store w' !! 200 = Some size /\
      1114112 - size <= 1100000 /\
      (PRS_PAL_OS_LINUX = PRS_PAL_OS_LINUX ->
         1100000 < 1114112 /\ 1100000 < 1114112 - size + 4096).
Proof.
  eexists. split; [vm_compute; reflexivity |].
  eapply (grow_covers_fault 64 4096 1048576 PRS_PAL_OS_LINUX
            1114112 4096 1100000 200 fresh_world).
  - lia.
  - lia.
  - discriminate.
  - intros _. split; [lia | vm_compute; reflexivity].
  - vm_compute. reflexivity.
Defined.

Lemma linux_grow_fault_in_committed_region_is_fatal_witness :
  prs_stack_grow 64 4096 1048576 PRS_PAL_OS_LINUX 1114112 4096 1112000 200
    fresh_world = Fatal.
Proof.
  apply (linux_grow_fault_in_committed_region_is_fatal 64 4096 1048576
           PRS_PAL_OS_LINUX 1114112 4096 1112000 200 fresh_world).
  - reflexivity.
  - vm_compute. reflexivity.
  - lia.
Defined.

Lemma linux_regrow_same_fault_is_fatal_witness :
  exists w' : world,
    prs_stack_grow 64 4096 1048576 PRS_PAL_OS_LINUX 1114112 4096 1110015 200
      fresh_world = Done true w' /\
    store w' !! 200 = Some 8192 /\
    prs_stack_grow 64 4096 1048576 PRS_PAL_OS_LINUX 1114112 8192 1110015 200 w' =
      Fatal.
Proof.
  eexists. split; [vm_compute; reflexivity |].
  split; [vm_compute; reflexivity |].
  eapply (linux_regrow_same_fault_is_fatal 64 4096 1048576 PRS_PAL_OS_LINUX
            1114112 4096 1110015 200 8192 fresh_world).
  - reflexivity.
  - lia.
  - lia.
  - lia.
  - vm_compute. reflexivity.
  - vm_compute. reflexivity.
  - vm_compute. reflexivity.
Defined.


Lemma linux_grow_page_below_adds_one_page_witness :
  exists w' : world,
    prs_stack_grow 64 4096 1048576 PRS_PAL_OS_LINUX 1114112 4096 1110015 200
      fresh_world = Done true w' /\
    store w' !! 200 = Some (4096 + 4096).
Proof.
  apply (linux_grow_page_below_adds_one_page 64 4096 1048576 PRS_PAL_OS_LINUX
           1114112 4096 1110015 200 fresh_world).
  - reflexivity.
  - lia.
  - split; [lia | exists 1; reflexivity].
  - discriminate.
  - vm_compute. reflexivity.
  - lia.
  - lia.
Defined.

Lemma create_grow_destroy_releases_everything_witness :
  exists w1 w2 : world,
    prs_stack_create 64 4096 1048576 PRS_PAL_OS_WINDOWS 1 100 fresh_world =
      Done 1114112 w1 /\
    store w1 !! 100 = Some 4096 /\
    grow_chain 64 4096 1048576 PRS_PAL_OS_WINDOWS 1114112 4096 200
      [1105000; 1090000] w1 = Some ([20480; 36864], w2) /\
    exists w3 : world,
      prs_stack_destroy 64 1048576 1114112 w2 = Done tt w3 /\
      store w3 = store w2 /\
      outstanding (trace w3) = outstanding (trace fresh_world).
Proof.
  eexists. eexists.
  split; [vm_compute; reflexivity |].
  split; [vm_compute; reflexivity |].
  split; [vm_compute; reflexivity |].
  eapply (create_grow_destroy_releases_everything 64 4096 1048576
            PRS_PAL_OS_WINDOWS 1 100 1114112 4096 200
            [1105000; 1090000] [20480; 36864] fresh_world).
  - lia.
  - vm_compute. discriminate.
  - vm_compute. reflexivity.
  - constructor; [right; split; [lia | vm_compute; reflexivity] | constructor].
  - vm_compute. reflexivity.
  - discriminate.
  - vm_compute. reflexivity.
  - vm_compute. reflexivity.
  - split; constructor.
Defined.
